(** * OAuth2 client-credentials secrets engine: the credential path

    A shallow embedding of [pkg/backend]: key derivation ([credKey],
    [credKeyWithScopes]), the token broker ([getTokenFromStorage],
    [getToken]), the request handlers ([credsReadOperation],
    [credsDeleteOperation], [getConfig], [configReadOperation],
    [configUpdateOperation], [configDeleteOperation]) and the parts of the Go
    standard library, of [golang.org/x/oauth2] and of the Vault SDK they
    call. *)

From Stdlib Require Import ZArith List Ascii String Lia Permutation.
From stdpp Require Import base gmap strings list sorting fin_maps.

Local Open Scope string_scope.
Local Open Scope Z_scope.

(** ** Go runtime: byte strings, [crypto/sha1], [fmt], [strings], [sort] *)

Module Go.

(** A Go string is a sequence of bytes; so is a Rocq [string]. *)
Definition bytes (s : string) : list Z :=
  map (fun c : ascii => Z.of_N (N_of_ascii c)) (list_ascii_of_string s).

(** *** crypto/sha1 (the generic block function) *)

Definition u32 (x : Z) : Z := Z.land x 0xFFFFFFFF.

Definition RotateLeft32 (x k : Z) : Z :=
  u32 (Z.lor (Z.shiftl x k) (Z.shiftr x (32 - k))).

Definition _K0 : Z := 0x5A827999.
Definition _K1 : Z := 0x6ED9EBA1.
Definition _K2 : Z := 0x8F1BBCDC.
Definition _K3 : Z := 0xCA62C1D6.

(** Big-endian 32-bit words of a 64-byte chunk. *)
Fixpoint words (p : list Z) : list Z :=
  match p with
  | b0 :: b1 :: b2 :: b3 :: p' =>
      Z.lor (Z.lor (Z.lor (Z.shiftl b0 24) (Z.shiftl b1 16)) (Z.shiftl b2 8)) b3
      :: words p'
  | _ => []
  end.

(** The message schedule.  [ws] holds the words computed so far, the most
    recent first, so that [w[(i-3)&0xf]] is the word at position 2 and
    [w[i&0xf]], not yet overwritten at round [i], the word at position 15. *)
Fixpoint schedule (n : nat) (ws : list Z) : list Z :=
  match n with
  | O => ws
  | S n' =>
      let tmp := Z.lxor (Z.lxor (Z.lxor (nth 2 ws 0) (nth 7 ws 0)) (nth 13 ws 0))
                        (nth 15 ws 0) in
      schedule n' (RotateLeft32 tmp 1 :: ws)
  end.

Definition roundF (i : Z) (b c d : Z) : Z :=
  if i <? 20 then Z.lor (Z.land b c) (Z.land (Z.lxor b 0xFFFFFFFF) d)
  else if i <? 40 then Z.lxor (Z.lxor b c) d
  else if i <? 60 then Z.lor (Z.land (Z.lor b c) d) (Z.land b c)
  else Z.lxor (Z.lxor b c) d.

Definition roundK (i : Z) : Z :=
  if i <? 20 then _K0 else if i <? 40 then _K1
  else if i <? 60 then _K2 else _K3.

Definition state : Type := Z * Z * Z * Z * Z.

Definition init : state :=
  (0x67452301, 0xEFCDAB89, 0x98BADCFE, 0x10325476, 0xC3D2E1F0).

Fixpoint rounds (i : Z) (ws : list Z) (s : state) : state :=
  match ws with
  | [] => s
  | w :: ws' =>
      let '(a, b, c, d, e) := s in
      let t := u32 (RotateLeft32 a 5 + roundF i b c d + e + w + roundK i) in
      rounds (i + 1) ws' (t, a, RotateLeft32 b 30, c, d)
  end.

Definition block (h : state) (p : list Z) : state :=
  let '(h0, h1, h2, h3, h4) := h in
  let ws := rev (schedule 64 (rev (words p))) in
  let '(a, b, c, d, e) := rounds 0 ws h in
  (u32 (h0 + a), u32 (h1 + b), u32 (h2 + c), u32 (h3 + d), u32 (h4 + e)).

(** Padding: 0x80, zeros up to 56 mod 64, the bit length on 8 bytes. *)
Definition be_bytes (n : nat) (x : Z) : list Z :=
  map (fun i : nat => Z.land (Z.shiftr x (8 * Z.of_nat (n - 1 - i))) 0xFF) (seq 0 n).

Definition pad (msg : list Z) : list Z :=
  let len := Z.of_nat (List.length msg) in
  let zeros := Z.to_nat ((55 - len) mod 64) in
  msg ++ 0x80 :: repeat 0 zeros ++ be_bytes 8 (8 * len).

Fixpoint blocks (n : nat) (h : state) (p : list Z) : state :=
  match n with
  | O => h
  | S n' => blocks n' (block h (firstn 64 p)) (skipn 64 p)
  end.

(** [sha1.Sum]: the 20 bytes of the digest. *)
Definition sha1_Sum (data : list Z) : list Z :=
  let p := pad data in
  let '(h0, h1, h2, h3, h4) :=
    blocks (List.length p / 64) init p in
  be_bytes 4 h0 ++ be_bytes 4 h1 ++ be_bytes 4 h2 ++ be_bytes 4 h3 ++ be_bytes 4 h4.

(** *** fmt: the verb [%x] on a byte slice or array *)

Definition hexdigit (n : Z) : ascii :=
  if n <? 10 then ascii_of_N (Z.to_N (48 + n)) else ascii_of_N (Z.to_N (87 + n)).

Fixpoint hex (bs : list Z) : string :=
  match bs with
  | [] => ""
  | b :: bs' => String (hexdigit (Z.shiftr b 4)) (String (hexdigit (Z.land b 15)) (hex bs'))
  end.

(** *** strings.Join *)

Fixpoint Join (elems : list string) (sep : string) : string :=
  match elems with
  | [] => ""
  | [e] => e
  | e :: rest => e +:+ sep +:+ Join rest sep
  end.

(** *** sort.Strings

    [sort.Strings] sorts in place in increasing byte-wise order; the order is
    total and antisymmetric, so the result is the only sorted permutation of
    the input, whichever algorithm computes it ([Sorted_Strings_unique]
    below). *)
Definition Strings (x : list string) : list string := merge_sort String.le x.

(** A slice of strings: [None] is the nil slice, [Some l] a non-nil slice with
    elements [l] (possibly none). *)
Definition slice : Type := option (list string).

(** *** strings.TrimPrefix on a string that has the prefix ([None] when it
    has not), and the part of a string up to and including its first [/]
    (the whole string when it has none). *)
Fixpoint TrimPrefix (s prefix : string) : option string :=
  match prefix, s with
  | EmptyString, _ => Some s
  | String a prefix', String b s' =>
      if Ascii.eqb a b then TrimPrefix s' prefix' else None
  | String _ _, EmptyString => None
  end.

Fixpoint upto_slash (s : string) : string :=
  match s with
  | EmptyString => ""
  | String c s' => if Ascii.eqb c "/" then "/" else String c (upto_slash s')
  end.

(** *** unicode/utf8 and the strings of encoding/json

    [rune_size s] is the width [utf8.DecodeRuneInString] reports for the
    rune that starts [s] when that rune is well encoded, and [None] when it
    is not (the decoder then reports [RuneError] with width 1). *)
Definition code (c : ascii) : Z := Z.of_N (N_of_ascii c).

Definition between (lo hi : Z) (c : ascii) : bool :=
  (lo <=? code c) && (code c <=? hi).

Definition rune_size (s : string) : option nat :=
  match s with
  | EmptyString => None
  | String c0 r =>
      let b := code c0 in
      if b <? 0x80 then Some 1%nat
      else if b <? 0xC2 then None
      else if b <? 0xE0 then
        match r with
        | String c1 _ => if between 0x80 0xBF c1 then Some 2%nat else None
        | _ => None
        end
      else if b <? 0xF0 then
        match r with
        | String c1 (String c2 _) =>
            if between (if b =? 0xE0 then 0xA0 else 0x80)
                       (if b =? 0xED then 0x9F else 0xBF) c1
               && between 0x80 0xBF c2
            then Some 3%nat else None
        | _ => None
        end
      else if b <? 0xF5 then
        match r with
        | String c1 (String c2 (String c3 _)) =>
            if between (if b =? 0xF0 then 0x90 else 0x80)
                       (if b =? 0xF4 then 0x8F else 0xBF) c1
               && between 0x80 0xBF c2 && between 0x80 0xBF c3
            then Some 4%nat else None
        | _ => None
        end
      else None
  end.

(** [utf8.ValidString]; [skip] counts the bytes of the current rune still to
    pass. *)
Fixpoint valid_from (skip : nat) (s : string) : bool :=
  match s with
  | EmptyString => true
  | String c r =>
      match skip with
      | S k => valid_from k r
      | O =>
          match rune_size s with
          | Some n => valid_from (pred n) r
          | None => false
          end
      end
  end.

Definition ValidString (s : string) : bool := valid_from 0 s.

(** The bytes of U+FFFD, the replacement rune. *)
Definition RuneError : string :=
  String (ascii_of_N 0xEF) (String (ascii_of_N 0xBF) (String (ascii_of_N 0xBD) "")).

(** A string after [json.Marshal] and [json.Unmarshal]: the encoder writes
    each byte that starts no well-encoded rune as the replacement rune. *)
Fixpoint coerce_from (skip : nat) (s : string) : string :=
  match s with
  | EmptyString => ""
  | String c r =>
      match skip with
      | S k => String c (coerce_from k r)
      | O =>
          match rune_size s with
          | Some n => String c (coerce_from (pred n) r)
          | None => RuneError +:+ coerce_from 0 r
          end
      end
  end.

Definition json_string (s : string) : string := coerce_from 0 s.

End Go.

Abbreviation slice := Go.slice.

(** ** golang.org/x/oauth2: tokens and their validity *)

Module oauth2.

(** [Expiry] is a [time.Time], counted here in nanoseconds from the zero time
    (January 1, year 1, 00:00 UTC), so that [IsZero] is [Expiry = 0]. *)
Record Token : Type := {
  AccessToken : string;
  TokenType : string;
  RefreshToken : string;
  Expiry : Z
}.

Definition second : Z := 1000000000.

(** [expiryDelta]: how much earlier than its expiry a token counts as expired. *)
Definition expiryDelta : Z := 10 * second.

Definition expired (now : Z) (t : Token) : bool :=
  if Expiry t =? 0 then false else Expiry t - expiryDelta <? now.

(** [Token.Valid]: non-nil, has an access token, and is not expired. *)
Definition Valid (now : Z) (t : option Token) : bool :=
  match t with
  | None => false
  | Some t => negb (String.eqb (AccessToken t) "") && negb (expired now t)
  end.

End oauth2.

Abbreviation Token := oauth2.Token.

(** ** golang.org/x/oauth2/clientcredentials: the exchange request *)

Module clientcredentials.

Record Config : Type := {
  ClientID : string;
  ClientSecret : string;
  TokenURL : string;
  Scopes : slice
}.

End clientcredentials.

(** The two kinds of failure of [Config.Token]: a [*oauth2.RetrieveError]
    (the token endpoint answered with a status that is not 2xx; it carries the
    status code and the body), or any other error (transport failure, a
    response that cannot be parsed or has no access token). *)
Inductive exchangeError : Type :=
| RetrieveError (StatusCode : Z) (Body : string)
| TransportError (msg : string).

(** ** path_config.go: the stored configuration *)

Record config : Type := {
  ClientID : string;
  ClientSecret : string;
  TokenURL : string;
  Scopes : slice
}.

Definition configPath : string := "config".
Definition credsPath : string := "creds".
Definition credsPathPrefix : string := credsPath +:+ "/".

(** Go [error] values seen by the handlers. *)
Inductive error : Type :=
| errInvalidCredentials
| ErrExchange (e : exchangeError)
| ErrStorage (msg : string)
| ErrJSON (msg : string).

(** ** Vault SDK: storage entries, responses *)

Module logical.

(** The bytes of a storage entry, seen through what they decode to: the JSON
    of a token, the JSON of a configuration, or bytes that are not JSON. *)
Inductive Value : Type :=
| TokenJSON (t : Token)
| ConfigJSON (c : config)
| Undecodable (raw : string).

(** [Time.MarshalJSON] refuses years outside [0, 9999]. *)
Definition minJSONTime : Z := - (366 * 86400 * oauth2.second).
Definition maxJSONTime : Z := 3652059 * 86400 * oauth2.second.

(** A token as the JSON encoder writes it: every string is coerced to valid
    UTF-8. *)
Definition json_token (tok : Token) : Token :=
  {| oauth2.AccessToken := Go.json_string (oauth2.AccessToken tok);
     oauth2.TokenType := Go.json_string (oauth2.TokenType tok);
     oauth2.RefreshToken := Go.json_string (oauth2.RefreshToken tok);
     oauth2.Expiry := oauth2.Expiry tok |}.

(** [StorageEntryJSON(key, tok)]. *)
Definition StorageEntryJSON_Token (key : string) (tok : Token)
  : error + (string * Value) :=
  if (minJSONTime <=? oauth2.Expiry tok) && (oauth2.Expiry tok <? maxJSONTime)
  then inr (key, TokenJSON (json_token tok))
  else inl (ErrJSON "Time.MarshalJSON: year outside of range [0,9999]").

Definition zeroToken : Token :=
  {| oauth2.AccessToken := ""; oauth2.TokenType := "";
     oauth2.RefreshToken := ""; oauth2.Expiry := 0 |}.

Definition zeroConfig : config :=
  {| ClientID := ""; ClientSecret := ""; TokenURL := ""; Scopes := None |}.

(** [entry.DecodeJSON(tok)]: fields absent from the JSON object keep their
    zero value, fields unknown to the target are skipped. *)
Definition DecodeJSON_Token (v : Value) : error + Token :=
  match v with
  | TokenJSON t => inr t
  | ConfigJSON _ => inr zeroToken
  | Undecodable _ => inl (ErrJSON "invalid character")
  end.

Definition DecodeJSON_config (v : Value) : error + config :=
  match v with
  | ConfigJSON c => inr c
  | TokenJSON _ => inr zeroConfig
  | Undecodable _ => inl (ErrJSON "invalid character")
  end.

(** The values of a response's [map[string]interface{}]. *)
Inductive Any : Type :=
| AString (s : string)
| AStrings (l : slice)
| ATime (t : Z).

Record Response : Type := { Data : gmap string Any }.

Definition ErrorResponse (text : string) : Response :=
  {| Data := {[ "error" := AString text ]} |}.

(** [Storage.List(prefix)] on the keys of the store: each key under the prefix
    gives its remainder, cut after the first [/]; in key order, without
    repetition. *)
Definition child (prefix k : string) : option string :=
  Go.upto_slash <$> Go.TrimPrefix k prefix.

Definition List_keys (prefix : string) (m : gmap string Value) : list string :=
  remove_dups (omap (child prefix) (merge_sort String.le (elements (dom m)))).

(** [StorageEntryJSON(configPath, c)]: every string goes through the JSON
    encoder. *)
Definition json_config (c : config) : config :=
  {| ClientID := Go.json_string (ClientID c);
     ClientSecret := Go.json_string (ClientSecret c);
     TokenURL := Go.json_string (TokenURL c);
     Scopes := map Go.json_string <$> Scopes c |}.

Definition StorageEntryJSON_config (key : string) (c : config)
  : error + (string * Value) :=
  inr (key, ConfigJSON (json_config c)).

End logical.

Abbreviation Value := logical.Value.
Abbreviation Response := logical.Response.

(** ** The world of a request: storage, clock, mutex, and a log of effects *)

Inductive Event : Type :=
| EvGet (key : string)
| EvPut (key : string)
| EvList (prefix : string)
| EvDelete (key : string)
| EvLock
| EvUnlock
| EvExchange (conf : clientcredentials.Config)
| EvLogError (msg : string).

(** [ops], [calls] and [locks] count the storage calls, the upstream exchanges
    and the lock acquisitions made so far.  A handler runs at the instant
    [clock]; time moves between requests ([advance]). *)
Record World : Type := {
  store : gmap string Value;
  clock : Z;
  credMut : bool;
  trace : list Event;
  ops : nat;
  calls : nat;
  locks : nat
}.

(** What the handlers do not control: the outcome of each storage call (an
    I/O failure or none), the answer of the token endpoint to each exchange,
    and what the other holders of the mutex did to the storage while this
    request waited for it. *)
Record Env : Type := {
  fault : nat -> option string;
  upstream : nat -> clientcredentials.Config -> exchangeError + Token;
  waiting : nat -> gmap string Value -> gmap string Value
}.

Definition advance (d : Z) (w : World) : World :=
  {| store := store w; clock := clock w + d; credMut := credMut w;
     trace := trace w; ops := ops w; calls := calls w; locks := locks w |}.

(** A Go function returning [(A, error)] and acting on the world. *)
Definition M (A : Type) : Type := World -> (error + A) * World.

Definition ret {A} (a : A) : M A := fun w => (inr a, w).
Definition throw {A} (e : error) : M A := fun w => (inl e, w).
Definition bind {A B} (m : M A) (k : A -> M B) : M B :=
  fun w => match m w with
           | (inr a, w') => k a w'
           | (inl e, w') => (inl e, w')
           end.
(** A call whose error is kept in a variable instead of being returned. *)
Definition attempt {A} (m : M A) : M (error + A) :=
  fun w => let '(r, w') := m w in (inr r, w').
(** [defer f]: [f] runs when the body returns, with a value or an error. *)
Definition defer {A} (f : World -> World) (m : M A) : M A :=
  fun w => let '(r, w') := m w in (r, f w').
Definition lift {A} (r : error + A) : M A := fun w => (r, w).

Declare Scope go_scope.
Delimit Scope go_scope with go.
Notation "x <- m ;; k" := (bind m (fun x => k))
  (at level 100, m at next level, right associativity) : go_scope.
Notation "m ;;; k" := (bind m (fun _ => k))
  (at level 100, right associativity) : go_scope.
Local Open Scope go_scope.

Section Backend.

Variable env : Env.

(** *** The primitives *)

(** The world after a storage call that logs [ev] and leaves the store [m]. *)
Definition stored (ev : Event) (m : gmap string Value) (w : World) : World :=
  {| store := m; clock := clock w; credMut := credMut w;
     trace := trace w ++ [ev]; ops := S (ops w); calls := calls w;
     locks := locks w |}.

Definition storage_call {A} (ev : Event)
    (f : gmap string Value -> A * gmap string Value) : M A :=
  fun w =>
    match fault env (ops w) with
    | Some msg => (inl (ErrStorage msg), stored ev (store w) w)
    | None => let '(a, m) := f (store w) in (inr a, stored ev m w)
    end.

Definition storage_Get (key : string) : M (option Value) :=
  storage_call (EvGet key) (fun m => (m !! key, m)).

Definition storage_Put (entry : string * Value) : M unit :=
  storage_call (EvPut (fst entry)) (fun m => (tt, <[fst entry := snd entry]> m)).

Definition storage_Delete (key : string) : M unit :=
  storage_call (EvDelete key) (fun m => (tt, delete key m)).

Definition storage_List (prefix : string) : M (list string) :=
  storage_call (EvList prefix) (fun m => (logical.List_keys prefix m, m)).

(** [b.credMut.Lock()]: by the time the mutex is held, the earlier holders
    have done their writes. *)
Definition Lock (w : World) : World :=
  {| store := waiting env (locks w) (store w); clock := clock w;
     credMut := true; trace := trace w ++ [EvLock]; ops := ops w;
     calls := calls w; locks := S (locks w) |}.

Definition Unlock (w : World) : World :=
  {| store := store w; clock := clock w; credMut := false;
     trace := trace w ++ [EvUnlock]; ops := ops w; calls := calls w;
     locks := locks w |}.

Definition do_ (f : World -> World) : M unit := fun w => (inr tt, f w).

Definition timeNow : M Z := fun w => (inr (clock w), w).

Definition logged (ev : Event) (w : World) : World :=
  {| store := store w; clock := clock w; credMut := credMut w;
     trace := trace w ++ [ev]; ops := ops w; calls := calls w;
     locks := locks w |}.

Definition exchanged (conf : clientcredentials.Config) (w : World) : World :=
  {| store := store w; clock := clock w; credMut := credMut w;
     trace := trace w ++ [EvExchange conf]; ops := ops w;
     calls := S (calls w); locks := locks w |}.

(** [config.Token(ctx)]: one exchange with the token endpoint. *)
Definition Config_Token (conf : clientcredentials.Config)
  : World -> (exchangeError + Token) * World :=
  fun w => (upstream env (calls w) conf, exchanged conf w).

Definition logger_Error (msg : string) : M unit :=
  fun w => (inr tt, logged (EvLogError msg) w).

(** *** path_creds.go *)

Definition getTokenFromStorage (key : string) : M (option Token) :=
  entry <- storage_Get key ;;
  match entry with
  | None => ret None
  | Some v =>
      tok <- lift (logical.DecodeJSON_Token v) ;;
      ret (Some tok)
  end.

(** The pair [(tok, err)] a call to [getTokenFromStorage] leaves in the
    variables [tok] and [err]: the function returns [nil, err] at both of its
    failures, and [tok, nil] or [nil, nil] otherwise. *)
Definition tok_err (r : error + option Token) : option Token * option error :=
  match r with
  | inl e => (None, Some e)
  | inr tok => (tok, None)
  end.

(** The request [getToken] prepares for the exchange. *)
Definition clientConfig (c : config) (scopes : slice) : clientcredentials.Config :=
  {| clientcredentials.ClientID := ClientID c;
     clientcredentials.ClientSecret := ClientSecret c;
     clientcredentials.TokenURL := TokenURL c;
     clientcredentials.Scopes :=
       (* Override default scopes if provided *)
       match scopes with
       | Some _ => scopes
       | None => Scopes c
       end |}.

Definition getToken (c : config) (key : string) (scopes : slice)
  : M (option Token) :=
  tok <- getTokenFromStorage key ;;
  now <- timeNow ;;
  (* Generate new token *)
  if match tok with None => true | Some _ => negb (oauth2.Valid now tok) end then
    let config := clientConfig c scopes in
    do_ Lock ;;;
    defer Unlock (
      (* Check if the token is not already in storage *)
      r <- attempt (getTokenFromStorage key) ;;
      let '(tok, err) := tok_err r in
      now <- timeNow ;;
      if match err with Some _ => true | None => false end
         && match tok with Some _ => true | None => false end
         && oauth2.Valid now tok
      then ret tok
      else
        fun w =>
          match Config_Token config w with
          | (inl (RetrieveError code body), w') =>
              (logger_Error "Invalid client credentials" ;;;
               throw errInvalidCredentials) w'
          | (inl err, w') => (inl (ErrExchange err), w')
          | (inr tok, w') =>
              (entry <- lift (logical.StorageEntryJSON_Token key tok) ;;
               storage_Put entry ;;;
               ret (Some tok)) w'
          end)
  else ret tok.

(** [credKey] hashes the name and splits the first few bytes into separate
    buckets. *)
Definition credKey (name : string) : string :=
  let hash := Go.sha1_Sum (Go.bytes name) in
  let first := firstn 2 hash in
  let second := firstn 2 (skipn 2 hash) in
  let rest := skipn 4 hash in
  credsPathPrefix +:+ (Go.hex first +:+ "/" +:+ Go.hex second +:+ "/" +:+ Go.hex rest).

(** The array [[20]byte{65}]. *)
Definition defaultHashScopes : list Z := 65 :: repeat 0 19%nat.

(** [credKeyWithScopes] adds scopes to the key.  It sorts [scopes] in place:
    the second component is the content of the caller's slice afterwards. *)
Definition credKeyWithScopes (key : string) (scopes : slice) : string * slice :=
  let scopes := Go.Strings <$> scopes in
  let hashScopes :=
    match scopes with
    | Some l => Go.sha1_Sum (Go.bytes (Go.Join l ","))
    | None => defaultHashScopes
    end in
  (key +:+ ("/" +:+ Go.hex hashScopes), scopes).

(** The fields of a request to [creds/:name]: [data.Get("name")] and
    [data.GetOk("scopes")] ([None] when the request has no [scopes]). *)
Record FieldData : Type := {
  field_name : string;
  field_scopes : option slice
}.

(** *** path_config.go *)

Definition getConfig : M (option config) :=
  entry <- storage_Get configPath ;;
  match entry with
  | None => ret None
  | Some v =>
      c <- lift (logical.DecodeJSON_config v) ;;
      ret (Some c)
  end.

Definition configReadOperation : M (option Response) :=
  c <- getConfig ;;
  match c with
  | None => ret None
  | Some c =>
      ret (Some {| logical.Data :=
                     {[ "client_id" := logical.AString (ClientID c);
                        "token_url" := logical.AString (TokenURL c);
                        "scopes" := logical.AStrings (Scopes c) ]} |})
  end.

(** *** path_creds.go: the handlers *)

(** The response that carries a token. *)
Definition tokenResponse (tok : Token) : Response :=
  {| logical.Data :=
       {[ "access_token" := logical.AString (oauth2.AccessToken tok);
          "expires" := logical.ATime (oauth2.Expiry tok) ]} |}.

(** When the request gives no scopes, [scopes] is the very slice of the
    decoded configuration, so the sort in [credKeyWithScopes] sorts
    [c.Scopes] too. *)
Definition credsReadOperation (data : FieldData) : M (option Response) :=
  c <- getConfig ;;
  match c with
  | None => ret (Some (logical.ErrorResponse "Not configured"))
  | Some c =>
      let '(scopes, shared) :=
        match field_scopes data with
        | Some d => (d, false)
        | None => (Scopes c, true)
        end in
      let '(key, scopes) := credKeyWithScopes (credKey (field_name data)) scopes in
      let c := if shared : bool
               then {| ClientID := ClientID c; ClientSecret := ClientSecret c;
                       TokenURL := TokenURL c; Scopes := scopes |}
               else c in
      r <- attempt (getToken c key scopes) ;;
      match r with
      | inl errInvalidCredentials =>
          ret (Some (logical.ErrorResponse "Invalid client credentials"))
      | inl err => throw err
      | inr None => ret None
      | inr (Some tok) =>
          now <- timeNow ;;
          if negb (oauth2.Valid now (Some tok))
          then ret (Some (logical.ErrorResponse "Token expired"))
          else ret (Some (tokenResponse tok))
      end
  end.

(** The loop over the listed keys; it stops at the first failing delete. *)
Fixpoint deleteEach (key : string) (scopes : list string) : M unit :=
  match scopes with
  | [] => ret tt
  | scope :: rest =>
      storage_Delete ((key +:+ "/") +:+ scope) ;;;
      deleteEach key rest
  end.

Definition credsDeleteOperation (data : FieldData) : M (option Response) :=
  do_ Lock ;;;
  defer Unlock (
    let key := credKey (field_name data) in
    scopes <- storage_List (key +:+ "/") ;;
    deleteEach key scopes ;;;
    ret None).

(** *** path_config.go: writing and deleting the configuration *)

(** The fields of a request to [config], each as [data.GetOk] gives it. *)
Record ConfigData : Type := {
  field_client_id : option string;
  field_client_secret : option string;
  field_token_url : option string;
  field_config_scopes : option slice
}.

Definition configUpdateOperation (data : ConfigData) : M (option Response) :=
  match field_client_id data with
  | None => ret (Some (logical.ErrorResponse "Missing client ID"))
  | Some clientID =>
      match field_client_secret data with
      | None => ret (Some (logical.ErrorResponse "Missing client secret"))
      | Some clientSecret =>
          match field_token_url data with
          | None => ret (Some (logical.ErrorResponse "Missing token URL"))
          | Some tokenURL =>
              let c :=
                {| ClientID := clientID; ClientSecret := clientSecret;
                   TokenURL := tokenURL;
                   Scopes := match field_config_scopes data with
                             | Some scopes => scopes
                             | None => None
                             end |} in
              entry <- lift (logical.StorageEntryJSON_config configPath c) ;;
              storage_Put entry ;;;
              ret None
          end
      end
  end.

Definition configDeleteOperation : M (option Response) :=
  storage_Delete configPath ;;;
  ret None.

End Backend.

(** ** Notions used in the statements *)

(** A list of bytes. *)
Definition is_bytes (l : list Z) : Prop := Forall (fun b => 0 <= b < 256) l.

(** The digest whose hexadecimal form ends the key. *)
Definition hashScopes (scopes : slice) : list Z :=
  match scopes with
  | Some l => Go.sha1_Sum (Go.bytes (Go.Join (Go.Strings l) ","))
  | None => defaultHashScopes
  end.

(** What a successful read of the storage finds at a key, decoded. *)
Definition tokenAt (m : gmap string Value) (key : string) : error + option Token :=
  match m !! key with
  | None => inr None
  | Some v =>
      match logical.DecodeJSON_Token v with
      | inl e => inl e
      | inr tok => inr (Some tok)
      end
  end.

Definition configAt (m : gmap string Value) : error + option config :=
  match m !! configPath with
  | None => inr None
  | Some v =>
      match logical.DecodeJSON_config v with
      | inl e => inl e
      | inr c => inr (Some c)
      end
  end.

(** What [credsReadOperation] hands to [getToken] for a request under a
    configuration: the configuration (its scopes sorted when the request
    shares them), the key and the sorted scopes. *)
Definition tokenRequest (data : FieldData) (c : config) : config * string * slice :=
  let '(scopes, shared) :=
    match field_scopes data with
    | Some d => (d, false)
    | None => (Scopes c, true)
    end in
  let '(key, scopes) := credKeyWithScopes (credKey (field_name data)) scopes in
  (if shared : bool
   then {| ClientID := ClientID c; ClientSecret := ClientSecret c;
           TokenURL := TokenURL c; Scopes := scopes |}
   else c, key, scopes).

(** The scopes a read hands to [getToken] before they are sorted, the key it
    derives, and the request it makes of the token endpoint when it
    refreshes. *)
Definition effectiveScopes (data : FieldData) (c : config) : slice :=
  match field_scopes data with
  | Some d => d
  | None => Scopes c
  end.

Definition tokenKey (data : FieldData) (c : config) : string :=
  fst (credKeyWithScopes (credKey (field_name data)) (effectiveScopes data c)).

Definition exchangeRequest (data : FieldData) (c : config) : clientcredentials.Config :=
  {| clientcredentials.ClientID := ClientID c;
     clientcredentials.ClientSecret := ClientSecret c;
     clientcredentials.TokenURL := TokenURL c;
     clientcredentials.Scopes :=
       match field_scopes data with
       | Some (Some l) => Some (Go.Strings l)
       | Some None => Scopes c
       | None => Go.Strings <$> Scopes c
       end |}.

(** The configuration [configUpdateOperation] builds from the fields of a
    complete request, and a configuration whose strings are all valid
    UTF-8. *)
Definition writtenConfig (id secret url : string) (scopes : option slice) : config :=
  {| ClientID := id; ClientSecret := secret; TokenURL := url;
     Scopes := match scopes with
               | Some l => l
               | None => None
               end |}.

Definition valid_config (c : config) : Prop :=
  Go.ValidString (ClientID c) = true /\ Go.ValidString (ClientSecret c) = true /\
  Go.ValidString (TokenURL c) = true /\
  match Scopes c with
  | Some l => Forall (fun s => Go.ValidString s = true) l
  | None => True
  end.

(** Two scope lists that derive one key: both nil, or both non-nil and with
    the same scopes in the same numbers. *)
Definition same_scopes (s1 s2 : slice) : Prop :=
  match s1, s2 with
  | Some l1, Some l2 => l1 ≡ₚ l2
  | None, None => True
  | _, _ => False
  end.

(** An environment without storage failures, and one where moreover nobody
    else writes to the storage. *)
Definition no_faults (env : Env) : Prop := forall n, fault env n = None.

Definition quiet (env : Env) : Prop :=
  no_faults env /\ forall n m, waiting env n m = m.

Definition with_store (m : gmap string Value) (w : World) : World :=
  {| store := m; clock := clock w; credMut := credMut w; trace := trace w;
     ops := ops w; calls := calls w; locks := locks w |}.

(** Two configurations that differ at most in the client secret. *)
Definition same_but_secret (c1 c2 : config) : Prop :=
  ClientID c1 = ClientID c2 /\ TokenURL c1 = TokenURL c2 /\ Scopes c1 = Scopes c2.

(** The error [getToken] returns for a failed exchange. *)
Definition exchangeFailure (e : exchangeError) : error :=
  match e with
  | RetrieveError _ _ => errInvalidCredentials
  | _ => ErrExchange e
  end.

(** In the words of the specification: a failure "indicates the provider
    rejected the credentials (authentication/authorization failure)".  Read
    generously: the endpoint answered 400 (the [invalid_client] and
    [unauthorized_client] errors of RFC 6749), 401 or 403. *)
Definition spec_rejected_credentials (e : exchangeError) : bool :=
  match e with
  | RetrieveError code _ => (code =? 400) || (code =? 401) || (code =? 403)
  | TransportError _ => false
  end.

(** ** The scenario of the repository's tests *)

Module Sample.

(** The instant of the first request. *)
Definition t0 : Z := 63739000000 * oauth2.second.

Definition token (access : string) (expires_in : Z) : Token :=
  {| oauth2.AccessToken := access; oauth2.TokenType := "bearer";
     oauth2.RefreshToken := ""; oauth2.Expiry := t0 + expires_in * oauth2.second |}.

Definition conf (scopes : slice) : config :=
  {| ClientID := "foo"; ClientSecret := "bar";
     TokenURL := "http://localhost/token"; Scopes := scopes |}.

Definition world (m : gmap string Value) : World :=
  {| store := m; clock := t0; credMut := false; trace := []; ops := 0;
     calls := 0; locks := 0 |}.

Definition configured (scopes : slice) : World :=
  world {[ configPath := logical.ConfigJSON (conf scopes) ]}.

(** The token endpoint of [TestTokenRead]: the first token lives 5 seconds,
    the later ones an hour. *)
Definition env : Env :=
  {| fault := fun _ => None;
     upstream := fun n _ =>
       match n with
       | O => inr (token "abcd1" 5)
       | S O => inr (token "abcd2" 3600)
       | _ => inr (token "abcd3" 3600)
       end;
     waiting := fun _ m => m |}.

(** The endpoint of [TestReadInvalidCredentials]: 404 to every request. *)
Definition env404 : Env :=
  {| fault := fun _ => None;
     upstream := fun _ _ => inl (RetrieveError 404 "");
     waiting := fun _ m => m |}.

Definition read (name : string) (scopes : option slice) : FieldData :=
  {| field_name := name; field_scopes := scopes |}.

Definition userKey (scopes : slice) : string :=
  fst (credKeyWithScopes (credKey "user") scopes).

Definition abc : slice := Some ["a"; "b"; "c"].

(** The worlds of [TestTokenRead] after its first read of [creds/user] (the
    five-second token, reported as expired) and after its second read. *)
Definition afterFirstRead : World :=
  snd (credsReadOperation env (read "user" None) (configured abc)).

Definition afterSecondRead : World :=
  snd (credsReadOperation env (read "user" None) afterFirstRead).

Definition abcde : slice := Some ["a"; "b"; "c"; "d"; "e"].

(** A storage with tokens for two scope variants of [user] and one of
    [user2]. *)
Definition stocked : World :=
  world (<[userKey abc := logical.TokenJSON (token "abcd2" 3600)]>
         (<[userKey abcde := logical.TokenJSON (token "abcd3" 3600)]>
          (<[fst (credKeyWithScopes (credKey "user2") abc) :=
               logical.TokenJSON (token "abcd4" 3600)]>
           {[ configPath := logical.ConfigJSON (conf abc) ]}))).

(** While the request waits for the mutex, another one stores a fresh token
    under the key. *)
Definition envRace : Env :=
  {| fault := fun _ => None;
     upstream := fun _ _ => inr (token "abcd2" 3600);
     waiting := fun _ m =>
       <[userKey abc := logical.TokenJSON (token "abcd1" 3600)]> m |}.



(** A storage that fails at every call. *)
Definition envDown : Env :=
  {| fault := fun _ => Some "connection refused";
     upstream := upstream env;
     waiting := fun _ m => m |}.



(** A token endpoint that cannot be reached. *)
Definition envOffline : Env :=
  {| fault := fun _ => None;
     upstream := fun _ _ => inl (TransportError "connection refused");
     waiting := fun _ m => m |}.

(** A storage with bytes that are no JSON under a token key. *)
Definition garbled : World :=
  world (<[userKey abc := logical.Undecodable "{"]>
         {[ configPath := logical.ConfigJSON (conf abc) ]}).

(** The configuration request of the tests, and one that changes the client
    secret. *)
Definition setup : ConfigData :=
  {| field_client_id := Some "foo"; field_client_secret := Some "bar";
     field_token_url := Some "http://localhost/token";
     field_config_scopes := Some abc |}.

Definition rotate : ConfigData :=
  {| field_client_id := Some "foo"; field_client_secret := Some "baz";
     field_token_url := Some "http://localhost/token";
     field_config_scopes := Some abc |}.


End Sample.

(** * Properties *)

(** ** Key derivation *)

Section KeyDerivation.

(** [sort.Strings] is determined by its specification. *)
Lemma Strings_Sorted (l : list string) : Sorted String.le (Go.Strings l).
Proof. apply (Sorted_merge_sort String.le). Qed.

Lemma Strings_Permutation (l : list string) : Go.Strings l ≡ₚ l.
Proof. apply merge_sort_Permutation. Qed.

Lemma Sorted_Strings_unique (l l' : list string) :
  Sorted String.le l' -> l' ≡ₚ l -> l' = Go.Strings l.
Proof.
  intros Hs Hp. apply (Sorted_unique String.le); auto using Strings_Sorted.
  rewrite Hp. symmetry. apply Strings_Permutation.
Qed.

Lemma Strings_perm_eq (l1 l2 : list string) :
  l1 ≡ₚ l2 -> Go.Strings l1 = Go.Strings l2.
Proof.
  intros Hp. apply Sorted_Strings_unique; [apply Strings_Sorted|].
  rewrite Strings_Permutation. exact Hp.
Qed.

Lemma Strings_fixed (l : list string) : Go.Strings l = l <-> Sorted String.le l.
Proof.
  split.
  - intros <-. apply Strings_Sorted.
  - intros Hs. symmetry. now apply Sorted_Strings_unique.
Qed.

Lemma land_255_byte (x : Z) : 0 <= Z.land x 0xFF < 256.
Proof.
  change 0xFF with (Z.ones 8). rewrite Z.land_ones by lia.
  apply Z.mod_pos_bound. lia.
Qed.

Lemma be_bytes_bytes (n : nat) (x : Z) : is_bytes (Go.be_bytes n x).
Proof.
  unfold is_bytes, Go.be_bytes. apply List.Forall_forall. intros b Hb.
  apply in_map_iff in Hb as (i & <- & _). apply land_255_byte.
Qed.

Lemma be_bytes_length (n : nat) (x : Z) : List.length (Go.be_bytes n x) = n.
Proof. unfold Go.be_bytes. now rewrite length_map, length_seq. Qed.

Lemma sha1_Sum_bytes (data : list Z) : is_bytes (Go.sha1_Sum data).
Proof.
  unfold Go.sha1_Sum.
  destruct (Go.blocks _ _ _) as [[[[h0 h1] h2] h3] h4].
  unfold is_bytes. rewrite !Forall_app. repeat split; apply be_bytes_bytes.
Qed.

Lemma sha1_Sum_length (data : list Z) : List.length (Go.sha1_Sum data) = 20%nat.
Proof.
  unfold Go.sha1_Sum.
  destruct (Go.blocks _ _ _) as [[[[h0 h1] h2] h3] h4].
  now rewrite !length_app, !be_bytes_length.
Qed.

Lemma defaultHashScopes_bytes : is_bytes defaultHashScopes.
Proof. unfold is_bytes, defaultHashScopes. repeat constructor; lia. Qed.

(** The character code of a hexadecimal digit. *)
Lemma hexdigit_code (n : Z) :
  0 <= n < 16 ->
  Z.of_N (N_of_ascii (Go.hexdigit n)) = if n <? 10 then 48 + n else 87 + n.
Proof.
  intros Hn. unfold Go.hexdigit.
  destruct (n <? 10); rewrite N_ascii_embedding by lia; lia.
Qed.

Lemma hexdigit_inj (n m : Z) :
  0 <= n < 16 -> 0 <= m < 16 -> Go.hexdigit n = Go.hexdigit m -> n = m.
Proof.
  intros Hn Hm E.
  apply (f_equal (fun c => Z.of_N (N_of_ascii c))) in E.
  rewrite !hexdigit_code in E by assumption.
  destruct (Z.ltb_spec n 10), (Z.ltb_spec m 10); lia.
Qed.

Lemma hexdigit_not_slash (n : Z) : 0 <= n < 16 -> Go.hexdigit n <> "/"%char.
Proof.
  intros Hn E.
  apply (f_equal (fun c => Z.of_N (N_of_ascii c))) in E.
  rewrite hexdigit_code in E by assumption.
  change (Z.of_N (N_of_ascii "/")) with 47 in E.
  destruct (Z.ltb_spec n 10); lia.
Qed.

Lemma nibbles (b : Z) :
  0 <= b < 256 ->
  0 <= Z.shiftr b 4 < 16 /\ 0 <= Z.land b 15 < 16 /\
  b = 16 * Z.shiftr b 4 + Z.land b 15.
Proof.
  intros Hb. rewrite Z.shiftr_div_pow2 by lia.
  change 15 with (Z.ones 4). rewrite Z.land_ones by lia.
  change (2 ^ 4) with 16.
  pose proof (Z.mod_pos_bound b 16 ltac:(lia)).
  pose proof (Z.div_mod b 16 ltac:(lia)).
  assert (0 <= b / 16) by (apply Z.div_pos; lia).
  assert (b / 16 < 16) by (apply Z.div_lt_upper_bound; lia).
  lia.
Qed.

Lemma hex_inj (bs1 bs2 : list Z) :
  is_bytes bs1 -> is_bytes bs2 -> Go.hex bs1 = Go.hex bs2 -> bs1 = bs2.
Proof.
  intros H1. revert bs2. induction H1 as [|b1 bs1 Hb1 _ IH]; intros bs2 H2 E.
  - destruct bs2; [reflexivity | discriminate E].
  - destruct H2 as [|b2 bs2 Hb2 H2]; [discriminate E|].
    simpl in E. injection E as Eh El Et.
    destruct (nibbles b1 Hb1) as (? & ? & ->).
    destruct (nibbles b2 Hb2) as (? & ? & ->).
    apply hexdigit_inj in Eh; [|assumption..].
    apply hexdigit_inj in El; [|assumption..].
    f_equal; [congruence | now apply IH].
Qed.

Lemma upto_slash_hex (bs : list Z) :
  is_bytes bs -> Go.upto_slash (Go.hex bs) = Go.hex bs.
Proof.
  induction 1 as [|b bs Hb _ IH]; [reflexivity|].
  destruct (nibbles b Hb) as (Hh & Hl & _). simpl.
  destruct (Ascii.eqb_spec (Go.hexdigit (Z.shiftr b 4)) "/") as [E|_];
    [now apply hexdigit_not_slash in E|].
  destruct (Ascii.eqb_spec (Go.hexdigit (Z.land b 15)) "/") as [E|_];
    [now apply hexdigit_not_slash in E|].
  now rewrite IH.
Qed.

Lemma credKeyWithScopes_key (key : string) (scopes : slice) :
  fst (credKeyWithScopes key scopes) = key +:+ ("/" +:+ Go.hex (hashScopes scopes)).
Proof. destruct scopes; reflexivity. Qed.

Lemma hashScopes_bytes (scopes : slice) : is_bytes (hashScopes scopes).
Proof. destruct scopes; [apply sha1_Sum_bytes | apply defaultHashScopes_bytes]. Qed.

Lemma credKeyWithScopes_key_inj (key : string) (s1 s2 : slice) :
  fst (credKeyWithScopes key s1) = fst (credKeyWithScopes key s2) <->
  hashScopes s1 = hashScopes s2.
Proof.
  rewrite !credKeyWithScopes_key. split; [|now intros ->].
  intros E. apply String.app_inj in E. apply (String.app_inj "/") in E.
  apply hex_inj; auto using hashScopes_bytes.
Qed.

End KeyDerivation.

(** ** The handlers, equation by equation *)

Section Effects.

Variable env : Env.

Lemma bind_eq {A B} (m : M A) (k : A -> M B) (w : World) :
  bind m k w = match m w with
               | (inr a, w') => k a w'
               | (inl e, w') => (inl e, w')
               end.
Proof. reflexivity. Qed.

Lemma getTokenFromStorage_eq (key : string) (w : World) :
  getTokenFromStorage env key w =
  (match fault env (ops w) with
   | Some msg => inl (ErrStorage msg)
   | None => tokenAt (store w) key
   end, stored (EvGet key) (store w) w).
Proof.
  unfold getTokenFromStorage, bind, storage_Get, storage_call, tokenAt.
  destruct (fault env (ops w)); [reflexivity|].
  destruct (store w !! key) as [v|]; [|reflexivity].
  unfold lift, ret. now destruct (logical.DecodeJSON_Token v).
Qed.

Lemma getConfig_eq (w : World) :
  getConfig env w =
  (match fault env (ops w) with
   | Some msg => inl (ErrStorage msg)
   | None => configAt (store w)
   end, stored (EvGet configPath) (store w) w).
Proof.
  unfold getConfig, bind, storage_Get, storage_call, configAt.
  destruct (fault env (ops w)); [reflexivity|].
  destruct (store w !! configPath) as [v|]; [|reflexivity].
  unfold lift, ret. now destruct (logical.DecodeJSON_config v).
Qed.

(** The test after the second read of the storage never holds: an error
    comes with a nil token. *)
Lemma reread_never_returns (r : error + option Token) (now : Z) :
  (let '(tok, err) := tok_err r in
   match err with Some _ => true | None => false end
   && match tok with Some _ => true | None => false end
   && oauth2.Valid now tok) = false.
Proof. destruct r as [e|[t|]]; reflexivity. Qed.

Lemma nil_or_invalid (now : Z) (tok : option Token) :
  match tok with None => true | Some _ => negb (oauth2.Valid now tok) end =
  negb (oauth2.Valid now tok).
Proof. now destruct tok. Qed.

(** The first read fails: its error is returned. *)
Lemma getToken_read_error (c : config) (key : string) (scopes : slice)
    (w : World) (e : error) :
  match fault env (ops w) with
  | Some msg => inl (ErrStorage msg)
  | None => tokenAt (store w) key
  end = inl e ->
  getToken env c key scopes w = (inl e, stored (EvGet key) (store w) w).
Proof.
  intros He. unfold getToken. now rewrite bind_eq, getTokenFromStorage_eq, He.
Qed.

(** The first read finds a valid token: it is returned. *)
Lemma getToken_fast (c : config) (key : string) (scopes : slice)
    (w : World) (tok : option Token) :
  fault env (ops w) = None ->
  tokenAt (store w) key = inr tok ->
  oauth2.Valid (clock w) tok = true ->
  getToken env c key scopes w = (inr tok, stored (EvGet key) (store w) w).
Proof.
  intros Hf Ht Hv. unfold getToken.
  rewrite bind_eq, getTokenFromStorage_eq, Hf, Ht.
  rewrite bind_eq. unfold timeNow at 1. cbn [clock stored].
  now rewrite nil_or_invalid, Hv.
Qed.

(** The first read finds no valid token: whatever the second read finds, the
    exchange takes place. *)
Lemma getToken_slow (c : config) (key : string) (scopes : slice)
    (w : World) (tok : option Token) :
  fault env (ops w) = None ->
  tokenAt (store w) key = inr tok ->
  oauth2.Valid (clock w) tok = false ->
  getToken env c key scopes w =
  let w1 := Lock env (stored (EvGet key) (store w) w) in
  let w2 := exchanged (clientConfig c scopes) (stored (EvGet key) (store w1) w1) in
  match upstream env (calls w) (clientConfig c scopes) with
  | inl e =>
      (inl (exchangeFailure e),
       Unlock (match e with
               | RetrieveError _ _ =>
                   logged (EvLogError "Invalid client credentials") w2
               | _ => w2
               end))
  | inr new =>
      match logical.StorageEntryJSON_Token key new with
      | inl e => (inl e, Unlock w2)
      | inr entry =>
          match fault env (ops w2) with
          | Some msg =>
              (inl (ErrStorage msg),
               Unlock (stored (EvPut (fst entry)) (store w2) w2))
          | None =>
              (inr (Some new),
               Unlock (stored (EvPut (fst entry))
                              (<[fst entry := snd entry]> (store w2)) w2))
          end
      end
  end.
Proof.
  intros Hf Ht Hi. unfold getToken.
  rewrite bind_eq, getTokenFromStorage_eq, Hf, Ht.
  rewrite bind_eq. unfold timeNow at 1. cbn [clock stored].
  rewrite nil_or_invalid, Hi. cbn [negb].
  rewrite bind_eq. unfold do_ at 1. unfold defer.
  rewrite bind_eq. unfold attempt. rewrite getTokenFromStorage_eq.
  set (w1 := Lock env _).
  set (r := match fault env (ops w1) with Some msg => _ | None => _ end).
  destruct (tok_err r) as [tok' err] eqn:Er.
  rewrite bind_eq. unfold timeNow at 1.
  pose proof (reread_never_returns r (clock (stored (EvGet key) (store w1) w1))) as Hn.
  rewrite Er in Hn. rewrite Hn.
  unfold Config_Token. subst w1. cbn [calls Lock stored].
  destruct (upstream env (calls w) (clientConfig c scopes))
    as [[code body|msg]|new]; try reflexivity.
  rewrite bind_eq. unfold lift at 1.
  destruct (logical.StorageEntryJSON_Token key new) as [e|entry]; [reflexivity|].
  rewrite bind_eq. unfold storage_Put, storage_call.
  destruct (fault env (ops (exchanged _ _))); reflexivity.
Qed.

Lemma StorageEntryJSON_Token_inr (key : string) (tok : Token) (entry : string * Value) :
  logical.StorageEntryJSON_Token key tok = inr entry ->
  entry = (key, logical.TokenJSON (logical.json_token tok)).
Proof.
  unfold logical.StorageEntryJSON_Token. destruct (_ && _); congruence.
Qed.


End Effects.

Lemma coerce_from_valid (skip : nat) (s : string) :
  Go.valid_from skip s = true -> Go.coerce_from skip s = s.
Proof.
  revert skip. induction s as [|c s IH]; intros skip H; [reflexivity|].
  cbn [Go.valid_from Go.coerce_from] in *.
  destruct skip as [|k].
  - destruct (Go.rune_size (String c s)) as [n|]; [|discriminate H].
    f_equal. now apply IH.
  - f_equal. now apply IH.
Qed.

Lemma json_string_valid (s : string) : Go.ValidString s = true -> Go.json_string s = s.
Proof. apply coerce_from_valid. Qed.




Section Reads.

Variable env : Env.

Lemma credsReadOperation_eq (data : FieldData) (w : World) :
  credsReadOperation env data w =
  let w0 := stored (EvGet configPath) (store w) w in
  match (match fault env (ops w) with
         | Some msg => inl (ErrStorage msg)
         | None => configAt (store w)
         end) with
  | inl e => (inl e, w0)
  | inr None => (inr (Some (logical.ErrorResponse "Not configured")), w0)
  | inr (Some c) =>
      let '(c', key, scopes) := tokenRequest data c in
      match getToken env c' key scopes w0 with
      | (inl errInvalidCredentials, w1) =>
          (inr (Some (logical.ErrorResponse "Invalid client credentials")), w1)
      | (inl err, w1) => (inl err, w1)
      | (inr None, w1) => (inr None, w1)
      | (inr (Some tok), w1) =>
          if negb (oauth2.Valid (clock w1) (Some tok))
          then (inr (Some (logical.ErrorResponse "Token expired")), w1)
          else (inr (Some (tokenResponse tok)), w1)
      end
  end.
Proof.
  unfold credsReadOperation. rewrite bind_eq, getConfig_eq.
  destruct (match fault env (ops w) with Some _ => _ | None => _ end)
    as [e|[c|]]; try reflexivity.
  unfold tokenRequest.
  destruct (match field_scopes data with Some d => _ | None => _ end)
    as [scopes shared].
  destruct (credKeyWithScopes _ scopes) as [key scopes'].
  cbv zeta. rewrite bind_eq. unfold attempt.
  destruct (getToken env _ key scopes' _) as [[e|[tok|]] w1]; try reflexivity.
  - destruct e; reflexivity.
  - rewrite bind_eq. unfold timeNow. now destruct (negb _).
Qed.


End Reads.

Lemma credKey_prefix (name : string) :
  exists rest, credKey name = String "c" (String "r" (String "e" rest)).
Proof. unfold credKey. eexists. reflexivity. Qed.

Lemma credKeyWithScopes_not_configPath (name : string) (scopes : slice) :
  fst (credKeyWithScopes (credKey name) scopes) <> configPath.
Proof.
  rewrite credKeyWithScopes_key.
  destruct (credKey_prefix name) as [rest ->]. discriminate.
Qed.





(** ** Listing and deleting the keys of a bucket *)

Lemma TrimPrefix_app (p s : string) : Go.TrimPrefix (p +:+ s) p = Some s.
Proof.
  induction p as [|a p IH]; simpl; [now destruct s|].
  now rewrite Ascii.eqb_refl.
Qed.

Lemma TrimPrefix_Some (k p s : string) :
  Go.TrimPrefix k p = Some s -> k = p +:+ s.
Proof.
  revert k. induction p as [|a p IH]; intros k H; simpl in *.
  - destruct k; simpl in H; now injection H as <-.
  - destruct k as [|b k]; simpl in H; [discriminate H|].
    destruct (Ascii.eqb_spec a b) as [->|]; [|discriminate H].
    now rewrite (IH k H).
Qed.

Lemma elem_of_List_keys (prefix suffix : string) (m : gmap string Value) :
  is_Some (m !! (prefix +:+ suffix)) ->
  Go.upto_slash suffix = suffix ->
  suffix ∈ logical.List_keys prefix m.
Proof.
  intros Hm Hs. unfold logical.List_keys.
  rewrite elem_of_remove_dups, list_elem_of_omap.
  exists (prefix +:+ suffix). split.
  - rewrite merge_sort_Permutation, elem_of_elements. now apply elem_of_dom.
  - unfold logical.child. rewrite TrimPrefix_app. cbn. now rewrite Hs.
Qed.

Lemma List_keys_nil (prefix : string) (m : gmap string Value) :
  (forall suffix, m !! (prefix +:+ suffix) = None) ->
  logical.List_keys prefix m = [].
Proof.
  intros Hm. apply elem_of_nil_inv. intros x. unfold logical.List_keys.
  rewrite elem_of_remove_dups, list_elem_of_omap. intros (k & Hk & Hc).
  rewrite merge_sort_Permutation, elem_of_elements, elem_of_dom in Hk.
  unfold logical.child in Hc.
  destruct (Go.TrimPrefix k prefix) as [s|] eqn:Ht; [|discriminate Hc].
  apply TrimPrefix_Some in Ht as ->. rewrite Hm in Hk. now destruct Hk.
Qed.

Section Deletion.

Variable env : Env.

Lemma deleteEach_ok (key : string) (l : list string) (w w' : World) :
  deleteEach env key l w = (inr tt, w') ->
  (forall s, s ∈ l -> store w' !! ((key +:+ "/") +:+ s) = None) /\
  (forall k, Go.TrimPrefix k (key +:+ "/") = None -> store w' !! k = store w !! k) /\
  (forall k, store w !! k = None -> store w' !! k = None) /\
  credMut w' = credMut w /\ calls w' = calls w /\
  trace w' = (trace w ++ map (fun s => EvDelete ((key +:+ "/") +:+ s)) l)%list.
Proof.
  revert w. induction l as [|s l IH]; intros w H.
  - injection H as <-. rewrite app_nil_r. repeat split; auto.
    intros s Hs. now apply elem_of_nil in Hs.
  - cbn [deleteEach] in H. rewrite bind_eq in H.
    unfold storage_Delete, storage_call in H.
    destruct (fault env (ops w)); [discriminate H|].
    apply IH in H as (Hd & Hf & Hn & Hm & Hc & Ht).
    cbn [store stored credMut calls trace] in *.
    repeat split; auto.
    + intros s' [->|Hs']%elem_of_cons; [|now apply Hd].
      apply Hn, lookup_delete_eq.
    + intros k Hk. rewrite (Hf k Hk). apply lookup_delete_ne.
      intros <-. now rewrite TrimPrefix_app in Hk.
    + intros k Hk. apply Hn.
      destruct (decide ((key +:+ "/") +:+ s = k)) as [->|Hne];
        [apply lookup_delete_eq | now rewrite lookup_delete_ne].
    + rewrite Ht. cbn [map]. now rewrite <- app_assoc.
Qed.

Lemma deleteEach_nil_eq (key : string) (w : World) :
  deleteEach env key [] w = (inr tt, w).
Proof. reflexivity. Qed.

End Deletion.

Lemma append_assoc (a b c : string) : (a +:+ b) +:+ c = a +:+ (b +:+ c).
Proof.
  induction a as [|x a IH]; [reflexivity|].
  change (String x ((a +:+ b) +:+ c) = String x (a +:+ (b +:+ c))).
  now rewrite IH.
Qed.

Lemma scope_variant_key (key : string) (scopes : slice) :
  fst (credKeyWithScopes key scopes) = (key +:+ "/") +:+ Go.hex (hashScopes scopes).
Proof. now rewrite credKeyWithScopes_key, append_assoc. Qed.

(** ** Claims on key derivation *)

(** C2 (as amended): for every credential name and every two scope lists that
    are both nil, or both non-nil and permutations of each other (the same
    scopes with the same multiplicities, in any order), the derived storage
    key is the same. *)
Theorem C2_key_of_permuted_scopes (n : string) (s1 s2 : slice) :
  same_scopes s1 s2 ->
  fst (credKeyWithScopes (credKey n) s1) =
  fst (credKeyWithScopes (credKey n) s2).
Proof.
  destruct s1 as [l1|], s2 as [l2|]; cbn [same_scopes]; intros Hp;
    [|contradiction|contradiction|reflexivity].
  rewrite !credKeyWithScopes_key. unfold hashScopes.
  now rewrite (Strings_perm_eq l1 l2 Hp).
Qed.

Lemma C2_key_of_permuted_scopes_witness :
  same_scopes (Some ["a"; "b"; "c"; "d"; "e"]) (Some ["a"; "b"; "c"; "e"; "d"]) /\
  fst (credKeyWithScopes (credKey "user") (Some ["a"; "b"; "c"; "d"; "e"])) =
  fst (credKeyWithScopes (credKey "user") (Some ["a"; "b"; "c"; "e"; "d"])).
Proof.
  assert (Hp : same_scopes (Some ["a"; "b"; "c"; "d"; "e"])
                           (Some ["a"; "b"; "c"; "e"; "d"]))
    by (cbn [same_scopes]; do 3 apply perm_skip; apply perm_swap).
  split; [exact Hp | apply (C2_key_of_permuted_scopes "user" _ _ Hp)].
Defined.

(** C2 (as stated) fails: the lists [a, a] and [a] are equal as sets, and
    their keys differ, since the scopes are sorted but not deduplicated.  The
    nil list and the empty list differ too: both hold no scope, and the nil
    list gets the default suffix where the empty list gets the digest of the
    empty string. *)
Lemma C2_duplicate_scopes_change_key :
  ((forall x : string, x ∈ ["a"; "a"] <-> x ∈ ["a"]) /\
   fst (credKeyWithScopes (credKey "user") (Some ["a"; "a"])) <>
   fst (credKeyWithScopes (credKey "user") (Some ["a"]))) /\
  fst (credKeyWithScopes (credKey "user") None) <>
  fst (credKeyWithScopes (credKey "user") (Some [])).
Proof.
  split; [split|].
  - intros x; rewrite !elem_of_cons, elem_of_nil; tauto.
  - vm_compute. discriminate.
  - vm_compute. discriminate.
Qed.

(** C3 (the code departs from it): the suffix for absent scopes is the
    hexadecimal form of the 20-byte array [65, 0, ..., 0], a value of the
    type of SHA-1 digests, as long and over the same alphabet as the suffix
    of any scope list; the key without scopes equals the key of a scope list
    exactly when that list's digest is this array. *)
Theorem C3_default_suffix_is_a_digest_value (key : string) :
  fst (credKeyWithScopes key None) =
    key +:+ "/4100000000000000000000000000000000000000" /\
  List.length defaultHashScopes = 20%nat /\ is_bytes defaultHashScopes /\
  forall l : list string,
    List.length (hashScopes (Some l)) = List.length defaultHashScopes /\
    is_bytes (hashScopes (Some l)) /\
    (fst (credKeyWithScopes key None) = fst (credKeyWithScopes key (Some l)) <->
     Go.sha1_Sum (Go.bytes (Go.Join (Go.Strings l) ",")) = defaultHashScopes).
Proof.
  split; [reflexivity|]. split; [reflexivity|].
  split; [apply defaultHashScopes_bytes|].
  intros l. split; [apply sha1_Sum_length|]. split; [apply sha1_Sum_bytes|].
  rewrite credKeyWithScopes_key_inj. simpl. split; intros E; now symmetry.
Qed.

(** C9 (as amended): key derivation is total and never fails; [credKey] has no
    effect; [credKeyWithScopes] has one: it sorts its scope list in place, so
    that afterwards the list is the sorted permutation of what it was, and is
    unchanged exactly when it was sorted already (a nil list stays nil). *)
Theorem C9_key_derivation_sorts_in_place (key : string) :
  snd (credKeyWithScopes key None) = None /\
  forall l : list string,
    exists l', snd (credKeyWithScopes key (Some l)) = Some l' /\
               Sorted String.le l' /\ l' ≡ₚ l /\
               (l' = l <-> Sorted String.le l).
Proof.
  split; [reflexivity|]. intros l. exists (Go.Strings l).
  split; [reflexivity|]. split; [apply Strings_Sorted|].
  split; [apply Strings_Permutation | apply Strings_fixed].
Qed.

(** C9 (as stated) fails: the list [b, a] is [a, b] after the call. *)
Lemma C9_argument_is_sorted_in_place :
  snd (credKeyWithScopes (credKey "user") (Some ["b"; "a"])) = Some ["a"; "b"] /\
  snd (credKeyWithScopes (credKey "user") (Some ["b"; "a"])) <> Some ["b"; "a"].
Proof. split; [reflexivity | vm_compute; discriminate]. Qed.

(** ** Claims on the token broker and the handlers *)

Lemma getToken_slow_calls (env : Env) (c : config) (key : string)
    (scopes : slice) (w : World) (tok : option Token) :
  fault env (ops w) = None ->
  tokenAt (store w) key = inr tok ->
  oauth2.Valid (clock w) tok = false ->
  calls (snd (getToken env c key scopes w)) = S (calls w).
Proof.
  intros Hf Ht Hv. rewrite (getToken_slow env c key scopes w tok Hf Ht Hv).
  cbv zeta.
  destruct (upstream env (calls w) (clientConfig c scopes)) as [[code body|msg]|new];
    try reflexivity.
  destruct (logical.StorageEntryJSON_Token key new); [reflexivity|].
  destruct (fault env (ops (exchanged _ _))); reflexivity.
Qed.


(** C1 (the code departs from it): the first read finds no token; while the
    request waits for the mutex another request stores a valid token under
    the key, and the second read, under the lock, succeeds and finds it.
    [getToken] still makes an upstream exchange, overwrites the stored token
    and returns the new one. *)
Theorem C1_token_found_under_lock_is_not_returned :
  let key := Sample.userKey (Some ["a"; "b"; "c"]) in
  let c := Sample.conf (Some ["a"; "b"; "c"]) in
  let w := Sample.world ∅ in
  let w1 := Lock Sample.envRace (stored (EvGet key) (store w) w) in
  tokenAt (store w) key = inr None /\
  getTokenFromStorage Sample.envRace key w1 =
    (inr (Some (Sample.token "abcd1" 3600)), stored (EvGet key) (store w1) w1) /\
  oauth2.Valid (clock w1) (Some (Sample.token "abcd1" 3600)) = true /\
  exists w',
    getToken Sample.envRace c key (Some ["a"; "b"; "c"]) w =
      (inr (Some (Sample.token "abcd2" 3600)), w') /\
    calls w' = 1%nat /\
    store w' !! key = Some (logical.TokenJSON (Sample.token "abcd2" 3600)) /\
    trace w' = [EvGet key; EvLock; EvGet key;
                EvExchange (clientConfig c (Some ["a"; "b"; "c"]));
                EvPut key; EvUnlock].
Proof.
  cbv zeta. split; [reflexivity|]. split; [vm_compute; reflexivity|].
  split; [reflexivity|]. eexists. split; [vm_compute; reflexivity|].
  split; [reflexivity|]. split; vm_compute; reflexivity.
Qed.




(** C6 (as amended): when the exchange fails, [getToken] returns
    [errInvalidCredentials] exactly when the failure is a [RetrieveError], that
    is when the token endpoint answered with a status that is not 2xx,
    whichever it is, and returns every other failure unchanged; in both cases
    the storage is not written. *)
Theorem C6_exchange_failure (env : Env) (c : config) (key : string)
    (scopes : slice) (w : World) (tok : option Token) (e : exchangeError) :
  fault env (ops w) = None ->
  tokenAt (store w) key = inr tok ->
  oauth2.Valid (clock w) tok = false ->
  upstream env (calls w) (clientConfig c scopes) = inl e ->
  exists err w',
    getToken env c key scopes w = (inl err, w') /\
    (err = errInvalidCredentials <-> exists code body, e = RetrieveError code body) /\
    (forall msg, e = TransportError msg -> err = ErrExchange e) /\
    store w' = waiting env (locks w) (store w) /\
    trace w' =
      (trace w ++ [EvGet key; EvLock; EvGet key; EvExchange (clientConfig c scopes)]
         ++ match e with
            | RetrieveError _ _ => [EvLogError "Invalid client credentials"]
            | TransportError _ => []
            end ++ [EvUnlock])%list.
Proof.
  intros Hf Ht Hv He.
  rewrite (getToken_slow env c key scopes w tok Hf Ht Hv), He. cbv zeta.
  exists (exchangeFailure e). eexists. split; [reflexivity|]. split.
  { destruct e as [code body|msg]; cbn; split; eauto; try discriminate.
    intros (? & ? & [=]). }
  split; [now intros msg ->|]. split; [now destruct e|].
  destruct e; cbn; now rewrite <- !app_assoc.
Qed.

Lemma C6_exchange_failure_witness :
  exists err w',
    getToken Sample.env404 (Sample.conf None) (Sample.userKey None) None
             (Sample.world ∅) = (inl err, w') /\
    (err = errInvalidCredentials <->
     exists code body, RetrieveError 404 "" = RetrieveError code body) /\
    (forall msg, RetrieveError 404 "" = TransportError msg ->
                 err = ErrExchange (RetrieveError 404 "")) /\
    store w' = ∅ /\
    trace w' =
      [EvGet (Sample.userKey None); EvLock; EvGet (Sample.userKey None);
       EvExchange (clientConfig (Sample.conf None) None);
       EvLogError "Invalid client credentials"; EvUnlock].
Proof.
  apply (C6_exchange_failure Sample.env404 (Sample.conf None) (Sample.userKey None)
           None (Sample.world ∅) None (RetrieveError 404 ""));
    reflexivity.
Defined.

(** C6 (as stated) fails: the endpoint of [TestReadInvalidCredentials] answers
    404 Not Found, which is no rejection of the credentials, and the read
    reports invalid client credentials. *)
Lemma C6_not_found_is_reported_as_invalid_credentials :
  upstream Sample.env404 0 (clientConfig (Sample.conf None) None) =
    inl (RetrieveError 404 "") /\
  spec_rejected_credentials (RetrieveError 404 "") = false /\
  fst (getToken Sample.env404 (Sample.conf None) (Sample.userKey None) None
                (Sample.world ∅)) = inl errInvalidCredentials /\
  fst (credsReadOperation Sample.env404 (Sample.read "user" None)
                          (Sample.configured None)) =
    inr (Some (logical.ErrorResponse "Invalid client credentials")).
Proof. repeat split; vm_compute; reflexivity. Qed.

(** C8: when the storage holds no configuration, a credential read answers
    "Not configured", whatever the name and the scopes of the request; it has
    made one storage call, the read of the configuration: no token record is
    read, no exchange is made, nothing is written. *)
Theorem C8_read_without_configuration (env : Env) (data : FieldData) (w : World) :
  fault env (ops w) = None ->
  store w !! configPath = None ->
  exists w',
    credsReadOperation env data w =
      (inr (Some (logical.ErrorResponse "Not configured")), w') /\
    trace w' = (trace w ++ [EvGet configPath])%list /\
    store w' = store w /\ calls w' = calls w /\ locks w' = locks w.
Proof.
  intros Hf Hc. rewrite credsReadOperation_eq, Hf. unfold configAt. rewrite Hc.
  cbv zeta. eexists. split; [reflexivity|]. now cbn.
Qed.

Lemma C8_read_without_configuration_witness :
  exists w',
    credsReadOperation Sample.env (Sample.read "user" None) (Sample.world ∅) =
      (inr (Some (logical.ErrorResponse "Not configured")), w') /\
    trace w' = [EvGet configPath] /\
    store w' = ∅ /\ calls w' = 0%nat /\ locks w' = 0%nat.
Proof.
  apply (C8_read_without_configuration Sample.env (Sample.read "user" None)
           (Sample.world ∅)); reflexivity.
Defined.

(** C10: two stored configurations that differ only in the client secret
    give the same answer to a configuration read, with the same effects; the
    answer has exactly the fields [client_id], [token_url] and [scopes], and
    so no client secret. *)
Theorem C10_config_read_hides_the_secret (env : Env) (w : World)
    (m : gmap string Value) (c1 c2 : config) :
  same_but_secret c1 c2 ->
  let w1 := with_store (<[configPath := logical.ConfigJSON c1]> m) w in
  let w2 := with_store (<[configPath := logical.ConfigJSON c2]> m) w in
  fst (configReadOperation env w1) = fst (configReadOperation env w2) /\
  trace (snd (configReadOperation env w1)) = trace (snd (configReadOperation env w2)) /\
  forall resp,
    fst (configReadOperation env w1) = inr (Some resp) ->
    dom (logical.Data resp) = ({[ "client_id"; "token_url"; "scopes" ]} : gset string) /\
    logical.Data resp !! "client_id" = Some (logical.AString (ClientID c1)) /\
    logical.Data resp !! "token_url" = Some (logical.AString (TokenURL c1)) /\
    logical.Data resp !! "scopes" = Some (logical.AStrings (Scopes c1)) /\
    logical.Data resp !! "client_secret" = None.
Proof.
  intros (Hid & Hurl & Hsc) w1 w2.
  unfold configReadOperation. rewrite !bind_eq, !getConfig_eq.
  subst w1 w2. cbn [ops store with_store]. unfold configAt.
  rewrite !lookup_insert_eq. cbn [logical.DecodeJSON_config].
  destruct (fault env (ops w)) as [msg|].
  - split; [reflexivity|]. split; [reflexivity|]. intros resp [=].
  - unfold ret. cbn [fst snd]. rewrite Hid, Hurl, Hsc.
    split; [reflexivity|]. split; [reflexivity|].
    intros resp [= <-]. cbn [logical.Data].
    repeat split; vm_compute; reflexivity.
Qed.

Lemma C10_config_read_hides_the_secret_witness :
  let w1 := Sample.configured Sample.abc in
  let w2 := with_store {[ configPath := logical.ConfigJSON
                            {| ClientID := "foo"; ClientSecret := "other";
                               TokenURL := "http://localhost/token";
                               Scopes := Sample.abc |} ]} (Sample.world ∅) in
  fst (configReadOperation Sample.env w1) = fst (configReadOperation Sample.env w2) /\
  fst (configReadOperation Sample.env w1) =
    inr (Some {| logical.Data :=
                   {[ "client_id" := logical.AString "foo";
                      "token_url" := logical.AString "http://localhost/token";
                      "scopes" := logical.AStrings Sample.abc ]} |}).
Proof.
  cbv zeta. split; [|reflexivity].
  apply (C10_config_read_hides_the_secret Sample.env (Sample.world ∅) ∅
           (Sample.conf Sample.abc)
           {| ClientID := "foo"; ClientSecret := "other";
              TokenURL := "http://localhost/token"; Scopes := Sample.abc |}).
  repeat split.
Defined.




(** C4: [credsDeleteOperation] takes the mutex of the refresh, lists the keys
    under the bucket of the name and deletes each of them, and releases the
    mutex: when it succeeds, the storage holds no token for any scope variant
    of the name, and the keys outside the bucket are as they were when the
    mutex was acquired.  When the bucket is empty and the listing succeeds, it
    succeeds and deletes nothing. *)
Theorem C4_delete_removes_every_scope_variant (env : Env) (data : FieldData)
    (w : World) :
  let key := credKey (field_name data) in
  let m := waiting env (locks w) (store w) in
  (forall r w',
      credsDeleteOperation env data w = (inr r, w') ->
      r = None /\
      (forall scopes, store w' !! fst (credKeyWithScopes key scopes) = None) /\
      (forall k, Go.TrimPrefix k (key +:+ "/") = None -> store w' !! k = m !! k) /\
      credMut w' = false /\
      trace w' =
        (trace w ++ [EvLock; EvList (key +:+ "/")]
           ++ map (fun s => EvDelete ((key +:+ "/") +:+ s))
                  (logical.List_keys (key +:+ "/") m)
           ++ [EvUnlock])%list) /\
  (fault env (ops w) = None ->
   (forall suffix, m !! ((key +:+ "/") +:+ suffix) = None) ->
   exists w',
     credsDeleteOperation env data w = (inr None, w') /\ store w' = m /\
     trace w' = (trace w ++ [EvLock; EvList (key +:+ "/"); EvUnlock])%list).
Proof.
  intros key m. split.
  - intros r w' H. unfold credsDeleteOperation in H.
    rewrite bind_eq in H. unfold do_ at 1, defer in H. fold key in H.
    rewrite bind_eq in H. unfold storage_List, storage_call in H.
    cbn [ops store Lock] in H. fold m in H.
    destruct (fault env (ops w)); [discriminate H|].
    rewrite bind_eq in H.
    destruct (deleteEach env key _ _) as [[e|[]] w2] eqn:Hd; [discriminate H|].
    unfold ret in H. injection H as <- <-.
    apply deleteEach_ok in Hd as (Hdel & Hframe & Hnone & Hmut & Hcalls & Htr).
    cbn [store stored Lock trace credMut Unlock] in *.
    split; [reflexivity|]. split; [|split; [|split]].
    + intros scopes. rewrite scope_variant_key.
      destruct (m !! ((key +:+ "/") +:+ Go.hex (hashScopes scopes))) as [v|] eqn:Hm.
      * apply Hdel, elem_of_List_keys; [now rewrite Hm|].
        apply upto_slash_hex, hashScopes_bytes.
      * now apply Hnone.
    + exact Hframe.
    + reflexivity.
    + rewrite Htr. now rewrite <- !app_assoc.
  - intros Hf Hm. unfold credsDeleteOperation.
    rewrite bind_eq. unfold do_ at 1, defer. fold key.
    rewrite bind_eq. unfold storage_List, storage_call.
    cbn [ops store Lock]. fold m. rewrite Hf.
    rewrite (List_keys_nil _ m Hm). rewrite bind_eq, deleteEach_nil_eq.
    eexists. split; [reflexivity|]. cbn. now rewrite <- !app_assoc.
Qed.

Lemma C4_delete_removes_every_scope_variant_witness :
  (forall scopes,
      store (snd (credsDeleteOperation Sample.env (Sample.read "user" None)
                                       Sample.stocked))
        !! fst (credKeyWithScopes (credKey "user") scopes) = None) /\
  (exists w',
      credsDeleteOperation Sample.env (Sample.read "user" None) (Sample.world ∅) =
        (inr None, w') /\
      store w' = ∅ /\
      trace w' = [EvLock; EvList (credKey "user" +:+ "/"); EvUnlock]).
Proof.
  split.
  - destruct (C4_delete_removes_every_scope_variant Sample.env
                (Sample.read "user" None) Sample.stocked) as [H _].
    apply (H None). vm_compute. reflexivity.
  - destruct (C4_delete_removes_every_scope_variant Sample.env
                (Sample.read "user" None) (Sample.world ∅)) as [_ H].
    apply H; [reflexivity|]. intros suffix. apply lookup_empty.
Defined.

(** * Further properties of the code *)

(** ** More on key derivation *)

Lemma append_length (a b : string) :
  String.length (a +:+ b) = (String.length a + String.length b)%nat.
Proof.
  induction a as [|x a IH]; [reflexivity|].
  change (S (String.length (a +:+ b)) = S (String.length a + String.length b)).
  now rewrite IH.
Qed.

Lemma hex_length (bs : list Z) : String.length (Go.hex bs) = (2 * List.length bs)%nat.
Proof. induction bs as [|b bs IH]; cbn [Go.hex String.length List.length]; lia. Qed.

(** Two strings of the same length at the head of equal strings are equal,
    and so are the rests. *)
Lemma append_inj_length (a b x y : string) :
  String.length a = String.length b -> a +:+ x = b +:+ y -> a = b /\ x = y.
Proof.
  revert b. induction a as [|c a IH]; intros [|d b] Hl E; try discriminate Hl.
  - now split.
  - change (String c (a +:+ x) = String d (b +:+ y)) in E.
    injection E as -> E. injection Hl as Hl.
    destruct (IH b Hl E) as [-> ->]. now split.
Qed.

Lemma is_bytes_firstn (n : nat) (l : list Z) : is_bytes l -> is_bytes (firstn n l).
Proof. apply Forall_take. Qed.

Lemma is_bytes_skipn (n : nat) (l : list Z) : is_bytes l -> is_bytes (skipn n l).
Proof. apply Forall_drop. Qed.

Lemma credKey_length (name : string) : String.length (credKey name) = 48%nat.
Proof.
  unfold credKey. rewrite !append_length, !hex_length.
  rewrite !length_firstn, !length_skipn, !sha1_Sum_length. reflexivity.
Qed.

Lemma credKey_inj (n1 n2 : string) :
  credKey n1 = credKey n2 <-> Go.sha1_Sum (Go.bytes n1) = Go.sha1_Sum (Go.bytes n2).
Proof.
  split; [|unfold credKey; now intros ->].
  unfold credKey. intros E. apply String.app_inj in E.
  pose proof (sha1_Sum_bytes (Go.bytes n1)) as B1.
  pose proof (sha1_Sum_bytes (Go.bytes n2)) as B2.
  pose proof (sha1_Sum_length (Go.bytes n1)) as L1.
  pose proof (sha1_Sum_length (Go.bytes n2)) as L2.
  set (h1 := Go.sha1_Sum (Go.bytes n1)) in *.
  set (h2 := Go.sha1_Sum (Go.bytes n2)) in *.
  apply append_inj_length in E as [E1 E];
    [|rewrite !hex_length, !length_firstn; lia].
  apply (append_inj_length "/" "/") in E as [_ E]; [|reflexivity].
  apply append_inj_length in E as [E2 E];
    [|rewrite !hex_length, !length_firstn, !length_skipn; lia].
  apply (append_inj_length "/" "/") in E as [_ E3]; [|reflexivity].
  apply hex_inj in E1, E2, E3;
    auto using is_bytes_firstn, is_bytes_skipn.
  rewrite <- (firstn_skipn 2 h1), <- (firstn_skipn 2 h2), E1. f_equal.
  rewrite <- (firstn_skipn 2 (skipn 2 h1)), <- (firstn_skipn 2 (skipn 2 h2)), E2.
  f_equal. rewrite !skipn_skipn. exact E3.
Qed.

(** The key of a scope variant of one name lies under the bucket of another
    name only when the two names have the same digest. *)
Lemma key_under_bucket (n n' : string) (scopes : slice) (suffix : string) :
  fst (credKeyWithScopes (credKey n) scopes) = (credKey n' +:+ "/") +:+ suffix ->
  Go.sha1_Sum (Go.bytes n) = Go.sha1_Sum (Go.bytes n').
Proof.
  rewrite scope_variant_key, !append_assoc. intros E.
  apply append_inj_length in E as [E _]; [|now rewrite !credKey_length].
  now apply credKey_inj.
Qed.

(** X1: every bucket key is 48 bytes long and every token key 89, whatever the
    length of the name and the number of scopes. *)
Theorem key_lengths (name : string) (scopes : slice) :
  String.length (credKey name) = 48%nat /\
  String.length (fst (credKeyWithScopes (credKey name) scopes)) = 89%nat.
Proof.
  split; [apply credKey_length|].
  rewrite credKeyWithScopes_key, !append_length, credKey_length, hex_length.
  destruct scopes; cbn [hashScopes]; [now rewrite sha1_Sum_length | reflexivity].
Qed.

(** X2: two requests derive the same token key exactly when the SHA-1 digests
    of their names are equal and the digests of their scopes (of the sorted,
    comma-joined list, or the default array for nil scopes) are equal. *)
Theorem token_keys_equal_iff (n1 n2 : string) (s1 s2 : slice) :
  fst (credKeyWithScopes (credKey n1) s1) = fst (credKeyWithScopes (credKey n2) s2) <->
  Go.sha1_Sum (Go.bytes n1) = Go.sha1_Sum (Go.bytes n2) /\ hashScopes s1 = hashScopes s2.
Proof.
  split.
  - intros E. rewrite !credKeyWithScopes_key in E.
    apply append_inj_length in E as [E1 E2]; [|now rewrite !credKey_length].
    split; [now apply credKey_inj|].
    apply (String.app_inj "/") in E2. apply hex_inj; auto using hashScopes_bytes.
  - intros [E1 E2]. rewrite !credKeyWithScopes_key, E2.
    now apply credKey_inj in E1 as ->.
Qed.

(** X3: a nil scope list and an empty, non-nil one give different keys: the
    first gets the default array, the second the digest of the empty string. *)
Theorem nil_and_empty_scopes_differ (key : string) :
  fst (credKeyWithScopes key None) <> fst (credKeyWithScopes key (Some [])).
Proof.
  rewrite credKeyWithScopes_key_inj. vm_compute. discriminate.
Qed.

(** X4: scopes are joined with commas unescaped, so a single scope [x,y] and
    the two scopes [x] and [y], in this order when sorted, give the same
    key. *)
Theorem comma_in_scope_collides (key x y : string) :
  String.le x y ->
  fst (credKeyWithScopes key (Some [x +:+ "," +:+ y])) =
  fst (credKeyWithScopes key (Some [x; y])).
Proof.
  intros Hle. rewrite !credKeyWithScopes_key. unfold hashScopes.
  assert (Hs : Go.Strings [x; y] = [x; y]).
  { apply Strings_fixed. repeat constructor. exact Hle. }
  assert (H1 : Go.Strings [x +:+ "," +:+ y] = [x +:+ "," +:+ y]).
  { apply Strings_fixed. repeat constructor. }
  now rewrite Hs, H1.
Qed.

Lemma comma_in_scope_collides_witness :
  String.le "a" "b" /\
  fst (credKeyWithScopes (credKey "user") (Some ["a,b"])) =
  fst (credKeyWithScopes (credKey "user") (Some ["a"; "b"])).
Proof.
  assert (H : String.le "a" "b") by (vm_compute; exact I).
  split; [exact H | apply (comma_in_scope_collides (credKey "user") "a" "b" H)].
Defined.

(** ** More on the token broker *)

Section Broker.

Variable env : Env.

(** The three ways through [getToken]. *)
Lemma getToken_cases (c : config) (key : string) (scopes : slice) (w : World) :
  (exists e, getToken env c key scopes w = (inl e, stored (EvGet key) (store w) w)) \/
  (exists tok, getToken env c key scopes w = (inr tok, stored (EvGet key) (store w) w) /\
               oauth2.Valid (clock w) tok = true) \/
  (exists tok, fault env (ops w) = None /\ tokenAt (store w) key = inr tok /\
               oauth2.Valid (clock w) tok = false).
Proof.
  destruct (fault env (ops w)) as [msg|] eqn:Hf.
  { left. exists (ErrStorage msg). apply getToken_read_error. now rewrite Hf. }
  destruct (tokenAt (store w) key) as [e|tok] eqn:Ht.
  { left. exists e. apply getToken_read_error. now rewrite Hf. }
  destruct (oauth2.Valid (clock w) tok) eqn:Hv.
  - right. left. exists tok. split; [now apply getToken_fast | exact Hv].
  - right. right. now exists tok.
Qed.

(** What a refresh leaves, whatever its outcome: the mutex released, one
    exchange more, and the store as the other writers left it, except
    possibly at the key. *)
Lemma getToken_slow_effects (c : config) (key : string) (scopes : slice)
    (w : World) (tok : option Token) :
  fault env (ops w) = None ->
  tokenAt (store w) key = inr tok ->
  oauth2.Valid (clock w) tok = false ->
  let w' := snd (getToken env c key scopes w) in
  credMut w' = false /\ calls w' = S (calls w) /\ locks w' = S (locks w) /\
  (ops w' <= ops w + 3)%nat /\
  (forall k, k <> key -> store w' !! k = waiting env (locks w) (store w) !! k) /\
  exists evs,
    trace w' = (trace w ++ [EvGet key; EvLock; EvGet key;
                            EvExchange (clientConfig c scopes)] ++ evs)%list /\
    forall conf, ~ In (EvExchange conf) evs.
Proof.
  intros Hf Ht Hv. rewrite (getToken_slow env c key scopes w tok Hf Ht Hv).
  cbv zeta.
  destruct (upstream env (calls w) (clientConfig c scopes)) as [[code body|msg]|new].
  - cbn. repeat split; auto; try lia.
    exists [EvLogError "Invalid client credentials"; EvUnlock].
    split; [now rewrite <- !app_assoc|]. intros conf [H|[H|[]]]; discriminate H.
  - cbn. repeat split; auto; try lia.
    exists [EvUnlock]. split; [now rewrite <- !app_assoc|].
    intros conf [H|[]]; discriminate H.
  - destruct (logical.StorageEntryJSON_Token key new) as [e|entry] eqn:Ee.
    + cbn. repeat split; auto; try lia.
      exists [EvUnlock]. split; [now rewrite <- !app_assoc|].
      intros conf [H|[]]; discriminate H.
    + apply StorageEntryJSON_Token_inr in Ee as ->.
      destruct (fault env (ops (exchanged _ _))); cbn.
      * repeat split; auto; try lia.
        exists [EvPut key; EvUnlock]. split; [now rewrite <- !app_assoc|].
        intros conf [H|[H|[]]]; discriminate H.
      * repeat split; auto; try lia.
        { intros k Hk. now rewrite lookup_insert_ne. }
        exists [EvPut key; EvUnlock]. split; [now rewrite <- !app_assoc|].
        intros conf [H|[H|[]]]; discriminate H.
Qed.

End Broker.

(** X5: when the first read of the storage fails, by an I/O failure or on an
    entry that does not decode, [getToken] returns that error after this one
    storage call: it takes no lock, makes no exchange and writes nothing. *)
Theorem getToken_first_read_failure (env : Env) (c : config) (key : string)
    (scopes : slice) (w : World) :
  let unchanged w' :=
    trace w' = (trace w ++ [EvGet key])%list /\ store w' = store w /\
    calls w' = calls w /\ locks w' = locks w /\ credMut w' = credMut w in
  (forall msg,
      fault env (ops w) = Some msg ->
      exists w', getToken env c key scopes w = (inl (ErrStorage msg), w') /\
                 unchanged w') /\
  (forall raw,
      fault env (ops w) = None ->
      store w !! key = Some (logical.Undecodable raw) ->
      exists w', getToken env c key scopes w =
                   (inl (ErrJSON "invalid character"), w') /\
                 unchanged w').
Proof.
  intros unchanged. split.
  - intros msg Hf. eexists. split.
    + apply getToken_read_error. now rewrite Hf.
    + now cbn.
  - intros raw Hf Hs. eexists. split.
    + apply getToken_read_error. rewrite Hf. unfold tokenAt. now rewrite Hs.
    + now cbn.
Qed.

Lemma getToken_first_read_failure_witness :
  (exists w',
      getToken Sample.envDown (Sample.conf Sample.abc) (Sample.userKey Sample.abc)
               Sample.abc (Sample.world ∅) =
        (inl (ErrStorage "connection refused"), w') /\
      trace w' = [EvGet (Sample.userKey Sample.abc)] /\ calls w' = 0%nat) /\
  (exists w',
      getToken Sample.env (Sample.conf Sample.abc) (Sample.userKey Sample.abc)
               Sample.abc Sample.garbled =
        (inl (ErrJSON "invalid character"), w') /\
      trace w' = [EvGet (Sample.userKey Sample.abc)] /\ calls w' = 0%nat).
Proof.
  split.
  - destruct (getToken_first_read_failure Sample.envDown (Sample.conf Sample.abc)
                (Sample.userKey Sample.abc) Sample.abc (Sample.world ∅)) as [H _].
    destruct (H "connection refused" eq_refl) as (w' & E & Ht & _ & Hc & _).
    exists w'. auto.
  - destruct (getToken_first_read_failure Sample.env (Sample.conf Sample.abc)
                (Sample.userKey Sample.abc) Sample.abc Sample.garbled) as [_ H].
    destruct (H "{" eq_refl) as (w' & E & Ht & _ & Hc & _);
      [vm_compute; reflexivity|].
    exists w'. auto.
Defined.

Lemma getToken_store_frame (env : Env) (c : config) (key : string)
    (scopes : slice) (w : World) (k : string) :
  k <> key ->
  let w' := snd (getToken env c key scopes w) in
  store w' !! k = store w !! k \/
  store w' !! k = waiting env (locks w) (store w) !! k.
Proof.
  intros Hk.
  destruct (getToken_cases env c key scopes w) as [[e H]|[(tok & H & _)|(tok & Hf & Ht & Hv)]].
  - rewrite H. now left.
  - rewrite H. now left.
  - destruct (getToken_slow_effects env c key scopes w tok Hf Ht Hv)
      as (_ & _ & _ & _ & Hs & _).
    right. now apply Hs.
Qed.

(** X6: [getToken] makes at most one exchange and at most three storage
    calls, and writes the storage at most at the key: either it leaves the
    store, the counters of exchanges and of locks as they were, or it has
    taken the mutex once, made one exchange, and the store is, except
    possibly at the key, what the earlier holders of the mutex left. *)
Theorem getToken_effects (env : Env) (c : config) (key : string)
    (scopes : slice) (w : World) :
  let w' := snd (getToken env c key scopes w) in
  (ops w' <= ops w + 3)%nat /\
  ((store w' = store w /\ calls w' = calls w /\ locks w' = locks w) \/
   (calls w' = S (calls w) /\ locks w' = S (locks w) /\
    forall k, k <> key -> store w' !! k = waiting env (locks w) (store w) !! k)).
Proof.
  destruct (getToken_cases env c key scopes w) as [[e H]|[(tok & H & _)|(tok & Hf & Ht & Hv)]].
  - rewrite H. cbn. split; [lia | now left].
  - rewrite H. cbn. split; [lia | now left].
  - destruct (getToken_slow_effects env c key scopes w tok Hf Ht Hv)
      as (_ & Hc & Hl & Ho & Hs & _).
    split; [exact Ho | right; auto].
Qed.

(** X7: the handlers of credentials leave the mutex released on every path,
    errors included, when they found it released. *)
Theorem mutex_is_released (env : Env) (w : World) :
  credMut w = false ->
  (forall c key scopes, credMut (snd (getToken env c key scopes w)) = false) /\
  (forall data, credMut (snd (credsReadOperation env data w)) = false) /\
  (forall data, credMut (snd (credsDeleteOperation env data w)) = false).
Proof.
  intros Hm.
  assert (HG : forall c key scopes w0, credMut w0 = false ->
                 credMut (snd (getToken env c key scopes w0)) = false).
  { intros c key scopes w0 H0.
    destruct (getToken_cases env c key scopes w0)
      as [[e H]|[(tok & H & _)|(tok & Hf & Ht & Hv)]].
    - now rewrite H.
    - now rewrite H.
    - now destruct (getToken_slow_effects env c key scopes w0 tok Hf Ht Hv). }
  split; [intros; now apply HG|]. split.
  - intros data. rewrite credsReadOperation_eq. cbv zeta.
    destruct (match fault env (ops w) with Some _ => _ | None => _ end)
      as [e|[c|]]; [exact Hm| |exact Hm].
    destruct (tokenRequest data c) as [[c' key] scopes].
    pose proof (HG c' key scopes (stored (EvGet configPath) (store w) w) Hm) as H.
    destruct (getToken env c' key scopes _) as [[e|[tok|]] w1]; cbn [snd] in H.
    + now destruct e.
    + now destruct (negb _).
    + exact H.
  - intros data. unfold credsDeleteOperation, bind, do_, defer.
    destruct (storage_List env _ _) as [[e|l] w1]; [reflexivity|].
    now destruct (deleteEach env _ l w1) as [[e|[]] w2].
Qed.

Lemma mutex_is_released_witness :
  credMut (snd (getToken Sample.env (Sample.conf Sample.abc)
                         (Sample.userKey Sample.abc) Sample.abc (Sample.world ∅))) = false /\
  credMut (snd (credsReadOperation Sample.env404 (Sample.read "user" None)
                                   (Sample.configured None))) = false /\
  credMut (snd (credsDeleteOperation Sample.envDown (Sample.read "user" None)
                                     Sample.stocked)) = false.
Proof.
  split; [|split].
  - apply (mutex_is_released Sample.env (Sample.world ∅) eq_refl).
  - apply (mutex_is_released Sample.env404 (Sample.configured None) eq_refl).
  - apply (mutex_is_released Sample.envDown Sample.stocked eq_refl).
Defined.





(** ** More on the read of a credential *)

Lemma tokenRequest_eq (data : FieldData) (c : config) :
  exists c' scopes,
    tokenRequest data c = (c', tokenKey data c, scopes) /\
    clientConfig c' scopes = exchangeRequest data c.
Proof.
  unfold tokenRequest, tokenKey, effectiveScopes, exchangeRequest, clientConfig.
  destruct (field_scopes data) as [[l|]|]; cbn.
  - eexists. eexists. split; reflexivity.
  - eexists. eexists. split; reflexivity.
  - destruct (Scopes c) as [l|]; cbn; eexists; eexists; split; reflexivity.
Qed.

Section ReadsMore.

Variable env : Env.

Lemma getToken_clientConfig (c1 c2 : config) (key : string) (scopes : slice) (w : World) :
  clientConfig c1 scopes = clientConfig c2 scopes ->
  getToken env c1 key scopes w = getToken env c2 key scopes w.
Proof. intros E. unfold getToken. now rewrite E. Qed.

Lemma getToken_exchanges (c : config) (key : string) (scopes : slice) (w : World)
    (conf : clientcredentials.Config) :
  In (EvExchange conf) (trace (snd (getToken env c key scopes w))) ->
  In (EvExchange conf) (trace w) \/ conf = clientConfig c scopes.
Proof.
  destruct (getToken_cases env c key scopes w)
    as [[e H]|[(tok & H & _)|(tok & Hf & Ht & Hv)]].
  - rewrite H. cbn. rewrite in_app_iff. intros [?|[E|[]]]; [now left | discriminate E].
  - rewrite H. cbn. rewrite in_app_iff. intros [?|[E|[]]]; [now left | discriminate E].
  - destruct (getToken_slow_effects env c key scopes w tok Hf Ht Hv)
      as (_ & _ & _ & _ & _ & evs & -> & Hn).
    rewrite !in_app_iff. intros [?|[Hi|Hi]]; [now left| |now apply Hn in Hi].
    destruct Hi as [E|[E|[E|[E|[]]]]]; try discriminate E.
    right. congruence.
Qed.

(** The read under a configuration, in terms of the key and of the request
    for the exchange. *)
Lemma credsReadOperation_configured (data : FieldData) (w : World) (c : config) :
  fault env (ops w) = None ->
  configAt (store w) = inr (Some c) ->
  exists c' scopes,
    clientConfig c' scopes = exchangeRequest data c /\
    credsReadOperation env data w =
    match getToken env c' (tokenKey data c) scopes
                   (stored (EvGet configPath) (store w) w) with
    | (inl errInvalidCredentials, w1) =>
        (inr (Some (logical.ErrorResponse "Invalid client credentials")), w1)
    | (inl err, w1) => (inl err, w1)
    | (inr None, w1) => (inr None, w1)
    | (inr (Some tok), w1) =>
        if negb (oauth2.Valid (clock w1) (Some tok))
        then (inr (Some (logical.ErrorResponse "Token expired")), w1)
        else (inr (Some (tokenResponse tok)), w1)
    end.
Proof.
  intros Hf Hc. destruct (tokenRequest_eq data c) as (c' & scopes & Hr & Hcc).
  exists c', scopes. split; [exact Hcc|].
  rewrite credsReadOperation_eq, Hf, Hc. cbv zeta. now rewrite Hr.
Qed.

End ReadsMore.

(** X10: every exchange a read makes carries the client ID, the client secret
    and the token URL of the stored configuration, and as scopes the sorted
    scopes of the request when it gives some, else the sorted scopes of the
    configuration (a nil list of the request leaves those of the
    configuration, unsorted). *)
Theorem read_exchange_request (env : Env) (data : FieldData) (w : World)
    (c : config) (conf : clientcredentials.Config) :
  fault env (ops w) = None ->
  configAt (store w) = inr (Some c) ->
  In (EvExchange conf) (trace (snd (credsReadOperation env data w))) ->
  In (EvExchange conf) (trace w) \/
  conf = {| clientcredentials.ClientID := ClientID c;
            clientcredentials.ClientSecret := ClientSecret c;
            clientcredentials.TokenURL := TokenURL c;
            clientcredentials.Scopes :=
              match field_scopes data with
              | Some (Some l) => Some (Go.Strings l)
              | Some None => Scopes c
              | None => Go.Strings <$> Scopes c
              end |}.
Proof.
  intros Hf Hc Hin.
  destruct (credsReadOperation_configured env data w c Hf Hc)
    as (c' & scopes & Hcc & E).
  rewrite E in Hin. clear E.
  pose proof (getToken_exchanges env c' (tokenKey data c) scopes
                (stored (EvGet configPath) (store w) w) conf) as Hg.
  destruct (getToken env c' (tokenKey data c) scopes _) as [[e|[tok|]] w1];
    cbn [snd] in Hg.
  - assert (Hin' : In (EvExchange conf) (trace w1)) by (destruct e; exact Hin).
    destruct (Hg Hin') as [Hold| ->]; [|right; exact Hcc].
    cbn in Hold. apply in_app_iff in Hold as [?|[E|[]]]; [now left | discriminate E].
  - assert (Hin' : In (EvExchange conf) (trace w1)) by (destruct (negb _); exact Hin).
    destruct (Hg Hin') as [Hold| ->]; [|right; exact Hcc].
    cbn in Hold. apply in_app_iff in Hold as [?|[E|[]]]; [now left | discriminate E].
  - destruct (Hg Hin) as [Hold| ->]; [|right; exact Hcc].
    cbn in Hold. apply in_app_iff in Hold as [?|[E|[]]]; [now left | discriminate E].
Qed.

Lemma read_exchange_request_witness :
  In (EvExchange (clientConfig (Sample.conf Sample.abc) Sample.abcde))
     (trace (snd (credsReadOperation Sample.env
                    (Sample.read "user" (Some (Some ["e"; "d"; "c"; "b"; "a"])))
                    (Sample.configured Sample.abc)))) /\
  (In (EvExchange (clientConfig (Sample.conf Sample.abc) Sample.abcde))
      (trace (Sample.configured Sample.abc)) \/
   clientConfig (Sample.conf Sample.abc) Sample.abcde =
   {| clientcredentials.ClientID := "foo";
      clientcredentials.ClientSecret := "bar";
      clientcredentials.TokenURL := "http://localhost/token";
      clientcredentials.Scopes := Some (Go.Strings ["e"; "d"; "c"; "b"; "a"]) |}).
Proof.
  assert (Hin : In (EvExchange (clientConfig (Sample.conf Sample.abc) Sample.abcde))
     (trace (snd (credsReadOperation Sample.env
                    (Sample.read "user" (Some (Some ["e"; "d"; "c"; "b"; "a"])))
                    (Sample.configured Sample.abc))))).
  { vm_compute. do 4 right. left. reflexivity. }
  split; [exact Hin|].
  apply (read_exchange_request Sample.env
           (Sample.read "user" (Some (Some ["e"; "d"; "c"; "b"; "a"])))
           (Sample.configured Sample.abc) (Sample.conf Sample.abc) _
           eq_refl eq_refl Hin).
Defined.

(** X11: when a read has to refresh and the exchange fails, a
    [RetrieveError] is answered with the error response "Invalid client
    credentials" and no Go error, and any other failure is returned as the
    error of the request; nothing is stored either way. *)
Theorem read_exchange_failure (env : Env) (data : FieldData) (w : World)
    (c : config) (old : option Token) (e : exchangeError) :
  fault env (ops w) = None ->
  configAt (store w) = inr (Some c) ->
  fault env (S (ops w)) = None ->
  tokenAt (store w) (tokenKey data c) = inr old ->
  oauth2.Valid (clock w) old = false ->
  upstream env (calls w) (exchangeRequest data c) = inl e ->
  exists w',
    credsReadOperation env data w =
      (match e with
       | RetrieveError _ _ =>
           inr (Some (logical.ErrorResponse "Invalid client credentials"))
       | TransportError _ => inl (ErrExchange e)
       end, w') /\
    store w' = waiting env (locks w) (store w) /\ credMut w' = false.
Proof.
  intros Hf Hc Hf1 Ht Hv Hu.
  destruct (credsReadOperation_configured env data w c Hf Hc)
    as (c' & scopes & Hcc & E).
  rewrite E. clear E.
  rewrite (getToken_slow env c' (tokenKey data c) scopes
             (stored (EvGet configPath) (store w) w) old Hf1 Ht Hv).
  cbv zeta. cbn [calls stored]. rewrite Hcc, Hu.
  destruct e; eexists; (split; [reflexivity | now cbn]).
Qed.

Lemma read_exchange_failure_witness :
  (exists w',
      credsReadOperation Sample.env404 (Sample.read "user" None)
                         (Sample.configured None) =
        (inr (Some (logical.ErrorResponse "Invalid client credentials")), w') /\
      store w' = store (Sample.configured None) /\ credMut w' = false) /\
  (exists w',
      credsReadOperation Sample.envOffline (Sample.read "user" None)
                         (Sample.configured None) =
        (inl (ErrExchange (TransportError "connection refused")), w') /\
      store w' = store (Sample.configured None) /\ credMut w' = false).
Proof.
  split.
  - apply (read_exchange_failure Sample.env404 (Sample.read "user" None)
             (Sample.configured None) (Sample.conf None) None
             (RetrieveError 404 "")); vm_compute; reflexivity.
  - apply (read_exchange_failure Sample.envOffline (Sample.read "user" None)
             (Sample.configured None) (Sample.conf None) None
             (TransportError "connection refused")); vm_compute; reflexivity.
Defined.



Lemma token_key_under_creds (name : string) (scopes : slice) :
  Go.TrimPrefix (fst (credKeyWithScopes (credKey name) scopes)) credsPathPrefix <> None.
Proof.
  rewrite credKeyWithScopes_key. unfold credKey.
  now rewrite append_assoc, TrimPrefix_app.
Qed.

(** X13: when the read of the configuration fails, by an I/O failure or on
    an entry that does not decode, [credsReadOperation] and
    [configReadOperation] return that error after this one storage call. *)
Theorem config_read_failure (env : Env) (data : FieldData) (w : World) (e : error) :
  (exists msg, fault env (ops w) = Some msg /\ e = ErrStorage msg) \/
  (exists raw, fault env (ops w) = None /\
               store w !! configPath = Some (logical.Undecodable raw) /\
               e = ErrJSON "invalid character") ->
  credsReadOperation env data w = (inl e, stored (EvGet configPath) (store w) w) /\
  configReadOperation env w = (inl e, stored (EvGet configPath) (store w) w).
Proof.
  intros H.
  assert (Hc : match fault env (ops w) with
               | Some msg => inl (ErrStorage msg)
               | None => configAt (store w)
               end = inl e).
  { destruct H as [(msg & -> & ->)|(raw & -> & Hs & ->)]; [reflexivity|].
    unfold configAt. now rewrite Hs. }
  split.
  - rewrite credsReadOperation_eq. cbv zeta. now rewrite Hc.
  - unfold configReadOperation. now rewrite bind_eq, getConfig_eq, Hc.
Qed.

Lemma config_read_failure_witness :
  credsReadOperation Sample.envDown (Sample.read "user" None) Sample.stocked =
    (inl (ErrStorage "connection refused"),
     stored (EvGet configPath) (store Sample.stocked) Sample.stocked) /\
  configReadOperation Sample.envDown Sample.stocked =
    (inl (ErrStorage "connection refused"),
     stored (EvGet configPath) (store Sample.stocked) Sample.stocked).
Proof.
  apply (config_read_failure Sample.envDown (Sample.read "user" None) Sample.stocked).
  left. exists "connection refused". split; reflexivity.
Defined.

(** X14: the order of the scopes of a request does not matter to a read: two
    requests for a name whose scope lists are both nil, or both non-nil and
    permutations of each other, have the same outcome and the same effects;
    and when the scope list of a request and the scope list of the stored
    configuration are both nil, or both non-nil and permutations of each
    other, the request and a request without a scopes field have the same
    outcome and the same effects. *)
Theorem read_scope_order_is_irrelevant (env : Env) (name : string)
    (s1 s2 : slice) (w : World) :
  same_scopes s1 s2 ->
  credsReadOperation env {| field_name := name; field_scopes := Some s1 |} w =
  credsReadOperation env {| field_name := name; field_scopes := Some s2 |} w /\
  (forall c, configAt (store w) = inr (Some c) -> Scopes c = s2 ->
     credsReadOperation env {| field_name := name; field_scopes := Some s1 |} w =
     credsReadOperation env {| field_name := name; field_scopes := None |} w).
Proof.
  destruct s1 as [l1|], s2 as [l2|]; cbn [same_scopes]; intros Hp;
    try contradiction.
  - split.
    + unfold credsReadOperation, credKeyWithScopes.
      cbn [field_scopes field_name fmap option_fmap option_map].
      now rewrite (Strings_perm_eq l1 l2 Hp).
    + intros c Hc Hs. rewrite !credsReadOperation_eq. cbv zeta.
      destruct (fault env (ops w)); [reflexivity|]. rewrite Hc.
      unfold tokenRequest, credKeyWithScopes.
      cbn [field_scopes field_name]. rewrite Hs.
      cbn [fmap option_fmap option_map]. rewrite (Strings_perm_eq l1 l2 Hp).
      now rewrite (getToken_clientConfig env c
                     {| ClientID := ClientID c; ClientSecret := ClientSecret c;
                        TokenURL := TokenURL c; Scopes := Some (Go.Strings l2) |}).
  - split; [reflexivity|].
    intros c Hc Hs. rewrite !credsReadOperation_eq. cbv zeta.
    destruct (fault env (ops w)); [reflexivity|]. rewrite Hc.
    unfold tokenRequest, credKeyWithScopes.
    cbn [field_scopes field_name]. rewrite Hs.
    cbn [fmap option_fmap option_map].
    rewrite (getToken_clientConfig env c
               {| ClientID := ClientID c; ClientSecret := ClientSecret c;
                  TokenURL := TokenURL c; Scopes := None |});
      [reflexivity | unfold clientConfig; cbn; now rewrite Hs].
Qed.

Lemma read_scope_order_is_irrelevant_witness :
  credsReadOperation Sample.env (Sample.read "user" (Some (Some ["c"; "a"; "b"])))
                     Sample.afterSecondRead =
  credsReadOperation Sample.env (Sample.read "user" (Some Sample.abc))
                     Sample.afterSecondRead /\
  credsReadOperation Sample.env (Sample.read "user" (Some (Some ["c"; "a"; "b"])))
                     Sample.afterSecondRead =
  credsReadOperation Sample.env (Sample.read "user" None) Sample.afterSecondRead.
Proof.
  assert (Hp : same_scopes (Some ["c"; "a"; "b"]) Sample.abc).
  { apply (perm_trans (l' := ["a"; "c"; "b"])); [apply perm_swap|].
    apply perm_skip, perm_swap. }
  destruct (read_scope_order_is_irrelevant Sample.env "user" _ _
              Sample.afterSecondRead Hp) as [H1 H2].
  split; [exact H1|].
  apply (H2 (Sample.conf Sample.abc)); vm_compute; reflexivity.
Defined.

(** X15: a read of a credential writes under [creds/] only: every other key
    of the storage, the configuration among them, is after the read what it
    was before or what the earlier holders of the mutex made of it. *)
Theorem read_writes_under_creds_only (env : Env) (data : FieldData) (w : World)
    (k : string) :
  Go.TrimPrefix k credsPathPrefix = None ->
  let w' := snd (credsReadOperation env data w) in
  store w' !! k = store w !! k \/
  store w' !! k = waiting env (locks w) (store w) !! k.
Proof.
  intros Hk. rewrite credsReadOperation_eq. cbv zeta.
  destruct (match fault env (ops w) with Some _ => _ | None => _ end)
    as [e|[c|]]; [now left| |now left].
  destruct (tokenRequest_eq data c) as (c' & scopes & -> & _).
  assert (Hne : k <> tokenKey data c).
  { intros ->. revert Hk. apply token_key_under_creds. }
  pose proof (getToken_store_frame env c' (tokenKey data c) scopes
                (stored (EvGet configPath) (store w) w) k Hne) as Hw1.
  destruct (getToken env c' (tokenKey data c) scopes _) as [r w1].
  cbn [snd store stored locks] in Hw1.
  destruct r as [e|[tok|]]; [now destruct e | now destruct (negb _) | exact Hw1].
Qed.

Lemma read_writes_under_creds_only_witness :
  store (snd (credsReadOperation Sample.env (Sample.read "user" None)
                                 (Sample.configured Sample.abc))) !! configPath =
    store (Sample.configured Sample.abc) !! configPath \/
  store (snd (credsReadOperation Sample.env (Sample.read "user" None)
                                 (Sample.configured Sample.abc))) !! configPath =
    waiting Sample.env (locks (Sample.configured Sample.abc))
            (store (Sample.configured Sample.abc)) !! configPath.
Proof.
  apply (read_writes_under_creds_only Sample.env (Sample.read "user" None)
           (Sample.configured Sample.abc) configPath). reflexivity.
Defined.

(** ** More on the deletion of a credential *)

Section DeletionMore.

Variable env : Env.

(** Whatever its outcome, the loop only removes entries, and only under the
    bucket. *)
Lemma deleteEach_any (key : string) (l : list string) (w : World) :
  let w' := snd (deleteEach env key l w) in
  (forall k, store w' !! k = store w !! k \/
             store w' !! k = None /\ Go.TrimPrefix k (key +:+ "/") <> None) /\
  credMut w' = credMut w /\ calls w' = calls w /\ locks w' = locks w /\
  clock w' = clock w.
Proof.
  revert w. induction l as [|s l IH]; intros w; cbn [deleteEach].
  - cbn. repeat split; auto.
  - rewrite bind_eq. unfold storage_Delete, storage_call.
    destruct (fault env (ops w)); [cbn; repeat split; auto|].
    specialize (IH (stored (EvDelete ((key +:+ "/") +:+ s))
                           (delete ((key +:+ "/") +:+ s) (store w)) w)).
    destruct IH as (Hs & Hm & Hc & Hl & Hk).
    cbn [store stored credMut calls locks clock] in *.
    repeat split; auto.
    intros k. destruct (Hs k) as [E|[E Hp]]; [|right; auto].
    destruct (decide ((key +:+ "/") +:+ s = k)) as [<-|Hne].
    + right. rewrite E, lookup_delete_eq. split; [reflexivity|].
      now rewrite TrimPrefix_app.
    + left. now rewrite E, lookup_delete_ne.
Qed.

Lemma credsDeleteOperation_any (data : FieldData) (w : World) :
  let key := credKey (field_name data) in
  let m := waiting env (locks w) (store w) in
  let w' := snd (credsDeleteOperation env data w) in
  (forall k, store w' !! k = m !! k \/
             store w' !! k = None /\ Go.TrimPrefix k (key +:+ "/") <> None) /\
  credMut w' = false /\ calls w' = calls w /\ clock w' = clock w.
Proof.
  intros key m w'. subst w'.
  destruct (credsDeleteOperation env data w) as [r w'] eqn:H. cbn [snd].
  unfold credsDeleteOperation in H.
  rewrite bind_eq in H. unfold do_ at 1, defer in H. fold key in H.
  rewrite bind_eq in H. unfold storage_List, storage_call in H.
  cbn [ops store Lock] in H. fold m in H.
  destruct (fault env (ops w)).
  { injection H as _ <-. cbn. repeat split; auto. }
  rewrite bind_eq in H.
  pose proof (deleteEach_any key (logical.List_keys (key +:+ "/") m)
                (stored (EvList (key +:+ "/")) m (Lock env w))) as Hd.
  destruct (deleteEach env key _ _) as [[e|[]] w2];
    injection H as _ <-;
    cbn [snd fst store stored credMut calls clock Lock Unlock] in *;
    destruct Hd as (Hs & _ & Hc & _ & Hk); repeat split; auto.
Qed.

(** A deletion that succeeds leaves no token of the name. *)
Lemma credsDeleteOperation_removes (data : FieldData) (w w' : World)
    (r : option Response) (scopes : slice) :
  credsDeleteOperation env data w = (inr r, w') ->
  store w' !! fst (credKeyWithScopes (credKey (field_name data)) scopes) = None.
Proof.
  intros H. unfold credsDeleteOperation in H.
  rewrite bind_eq in H. unfold do_ at 1, defer in H.
  rewrite bind_eq in H. unfold storage_List, storage_call in H.
  cbn [ops store Lock] in H.
  destruct (fault env (ops w)); [discriminate H|].
  rewrite bind_eq in H.
  destruct (deleteEach env _ _ _) as [[e|[]] w2] eqn:Hd; [discriminate H|].
  unfold ret in H. injection H as _ <-.
  apply deleteEach_ok in Hd as (Hdel & _ & Hnone & _).
  cbn [store stored Lock Unlock] in *. rewrite scope_variant_key.
  set (key := credKey (field_name data)) in *.
  set (m := waiting env (locks w) (store w)) in *.
  destruct (m !! ((key +:+ "/") +:+ Go.hex (hashScopes scopes))) as [v|] eqn:Hm.
  - apply Hdel, elem_of_List_keys; [now rewrite Hm|].
    apply upto_slash_hex, hashScopes_bytes.
  - now apply Hnone.
Qed.

End DeletionMore.

Lemma configPath_outside_buckets (name : string) :
  Go.TrimPrefix configPath (credKey name +:+ "/") = None.
Proof. destruct (credKey_prefix name) as [rest ->]. reflexivity. Qed.

(** X16: when the listing of the bucket fails, [credsDeleteOperation] returns
    the error and deletes nothing; the mutex is released. *)
Theorem delete_listing_failure (env : Env) (data : FieldData) (w : World)
    (msg : string) :
  fault env (ops w) = Some msg ->
  exists w',
    credsDeleteOperation env data w = (inl (ErrStorage msg), w') /\
    store w' = waiting env (locks w) (store w) /\ credMut w' = false /\
    trace w' = (trace w ++ [EvLock; EvList (credKey (field_name data) +:+ "/");
                            EvUnlock])%list.
Proof.
  intros Hf. unfold credsDeleteOperation.
  rewrite bind_eq. unfold do_ at 1, defer.
  rewrite bind_eq. unfold storage_List, storage_call.
  cbn [ops store Lock]. rewrite Hf.
  eexists. split; [reflexivity|]. cbn. now rewrite <- !app_assoc.
Qed.

Lemma delete_listing_failure_witness :
  exists w',
    credsDeleteOperation Sample.envDown (Sample.read "user" None) Sample.stocked =
      (inl (ErrStorage "connection refused"), w') /\
    store w' = store Sample.stocked /\ credMut w' = false /\
    trace w' = [EvLock; EvList (credKey "user" +:+ "/"); EvUnlock].
Proof.
  apply (delete_listing_failure Sample.envDown (Sample.read "user" None)
           Sample.stocked "connection refused"). reflexivity.
Defined.

(** X17: whatever its outcome, the deletion of a name only removes entries,
    and only under the bucket of the name: it adds and changes nothing, and
    it leaves the configuration and the tokens of every name with another
    SHA-1 digest as they were when the mutex was acquired. *)
Theorem delete_removes_under_the_bucket_only (env : Env) (data : FieldData)
    (w : World) :
  let w' := snd (credsDeleteOperation env data w) in
  let m := waiting env (locks w) (store w) in
  (forall k, store w' !! k = m !! k \/
             store w' !! k = None /\
             exists suffix, k = (credKey (field_name data) +:+ "/") +:+ suffix) /\
  store w' !! configPath = m !! configPath /\
  (forall name scopes,
      Go.sha1_Sum (Go.bytes name) <> Go.sha1_Sum (Go.bytes (field_name data)) ->
      store w' !! fst (credKeyWithScopes (credKey name) scopes) =
      m !! fst (credKeyWithScopes (credKey name) scopes)).
Proof.
  intros w' m. destruct (credsDeleteOperation_any env data w) as (Hs & _).
  fold w' m in Hs.
  assert (H : forall k, store w' !! k = m !! k \/
             store w' !! k = None /\
             exists suffix, k = (credKey (field_name data) +:+ "/") +:+ suffix).
  { intros k. destruct (Hs k) as [E|[E Hp]]; [now left|right].
    split; [exact E|].
    destruct (Go.TrimPrefix k _) as [suffix|] eqn:Ht; [|now destruct Hp].
    exists suffix. now apply TrimPrefix_Some. }
  split; [exact H|]. split.
  - destruct (Hs configPath) as [E|[_ Hp]]; [exact E|].
    now rewrite configPath_outside_buckets in Hp.
  - intros name scopes Hne.
    destruct (H (fst (credKeyWithScopes (credKey name) scopes)))
      as [E|[_ [suffix E]]]; [exact E|].
    now apply key_under_bucket in E.
Qed.

Lemma delete_removes_under_the_bucket_only_witness :
  Go.sha1_Sum (Go.bytes "user2") <> Go.sha1_Sum (Go.bytes "user") /\
  store (snd (credsDeleteOperation Sample.env (Sample.read "user" None) Sample.stocked))
    !! fst (credKeyWithScopes (credKey "user2") Sample.abc) =
  waiting Sample.env (locks Sample.stocked) (store Sample.stocked)
    !! fst (credKeyWithScopes (credKey "user2") Sample.abc).
Proof.
  assert (Hne : Go.sha1_Sum (Go.bytes "user2") <> Go.sha1_Sum (Go.bytes "user"))
    by (vm_compute; discriminate).
  split; [exact Hne|].
  apply (delete_removes_under_the_bucket_only Sample.env (Sample.read "user" None)
           Sample.stocked). exact Hne.
Defined.

(** X18: after a deletion of a name that succeeded, a read of that name, with
    any scopes, finds no token and makes an exchange (no storage call
    failing, nobody else writing, and the configuration being in place). *)
Theorem read_after_delete_refreshes (env : Env) (del data : FieldData)
    (w w1 : World) (r : option Response) (c : config) :
  quiet env ->
  configAt (store w) = inr (Some c) ->
  credsDeleteOperation env del w = (inr r, w1) ->
  field_name data = field_name del ->
  let w2 := snd (credsReadOperation env data w1) in
  calls w2 = S (calls w1) /\
  In (EvExchange (exchangeRequest data c)) (trace w2).
Proof.
  intros [Hnf Hw] Hc Hd Hn w2. subst w2.
  assert (Hkey : store w1 !! tokenKey data c = None).
  { unfold tokenKey. rewrite Hn. eapply credsDeleteOperation_removes, Hd. }
  assert (Hc1 : configAt (store w1) = inr (Some c)).
  { destruct (credsDeleteOperation_any env del w) as (Hs & _).
    rewrite Hd in Hs. cbn [snd] in Hs.
    destruct (Hs configPath) as [E|[_ Hp]];
      [|now rewrite configPath_outside_buckets in Hp].
    unfold configAt in *. now rewrite E, Hw. }
  destruct (credsReadOperation_configured env data w1 c (Hnf _) Hc1)
    as (c' & scopes & Hcc & E).
  assert (Ht : tokenAt (store (stored (EvGet configPath) (store w1) w1))
                       (tokenKey data c) = inr None).
  { unfold tokenAt. cbn [store stored]. now rewrite Hkey. }
  pose proof (getToken_slow_effects env c' (tokenKey data c) scopes
                (stored (EvGet configPath) (store w1) w1) None (Hnf _) Ht eq_refl)
    as (_ & Hcalls & _ & _ & _ & evs & Htr & _).
  rewrite E. clear E.
  destruct (getToken env c' (tokenKey data c) scopes _) as [[e|[tok|]] w3];
    cbn [snd calls trace stored] in *.
  - rewrite Hcc in Htr.
    destruct e; cbn [snd]; (split; [exact Hcalls|]); rewrite Htr;
      rewrite !in_app_iff; right; left; cbn; auto.
  - rewrite Hcc in Htr.
    destruct (negb _); cbn [snd]; (split; [exact Hcalls|]); rewrite Htr;
      rewrite !in_app_iff; right; left; cbn; auto.
  - rewrite Hcc in Htr. split; [exact Hcalls|]. rewrite Htr.
    rewrite !in_app_iff. right. left. cbn. auto.
Qed.

Lemma read_after_delete_refreshes_witness :
  calls (snd (credsReadOperation Sample.env (Sample.read "user" (Some Sample.abcde))
                (snd (credsDeleteOperation Sample.env (Sample.read "user" None)
                                           Sample.stocked)))) =
    S (calls (snd (credsDeleteOperation Sample.env (Sample.read "user" None)
                                        Sample.stocked))) /\
  In (EvExchange (exchangeRequest (Sample.read "user" (Some Sample.abcde))
                                  (Sample.conf Sample.abc)))
     (trace (snd (credsReadOperation Sample.env (Sample.read "user" (Some Sample.abcde))
                    (snd (credsDeleteOperation Sample.env (Sample.read "user" None)
                                               Sample.stocked))))).
Proof.
  apply (read_after_delete_refreshes Sample.env (Sample.read "user" None)
           (Sample.read "user" (Some Sample.abcde)) Sample.stocked _ None
           (Sample.conf Sample.abc) (conj (fun _ => eq_refl) (fun _ _ => eq_refl)));
    [vm_compute; reflexivity | vm_compute; reflexivity | reflexivity].
Defined.

(** ** The configuration: writing, reading, deleting *)

Lemma json_config_valid (c : config) : valid_config c -> logical.json_config c = c.
Proof.
  destruct c as [id secret url scopes]. intros (Hi & Hs & Hu & Hl). cbn in *.
  unfold logical.json_config. cbn.
  rewrite !json_string_valid by assumption. f_equal.
  destruct scopes as [l|]; [|reflexivity]. cbn. f_equal.
  induction Hl as [|s l Hs' _ IH]; [reflexivity|].
  cbn. now rewrite json_string_valid, IH.
Qed.

Section Configuration.

Variable env : Env.

Lemma configUpdateOperation_complete (data : ConfigData) (w : World)
    (id secret url : string) :
  field_client_id data = Some id ->
  field_client_secret data = Some secret ->
  field_token_url data = Some url ->
  let c := logical.json_config
             (writtenConfig id secret url (field_config_scopes data)) in
  configUpdateOperation env data w =
  match fault env (ops w) with
  | Some msg => (inl (ErrStorage msg), stored (EvPut configPath) (store w) w)
  | None =>
      (inr None,
       stored (EvPut configPath)
              (<[configPath := logical.ConfigJSON c]> (store w)) w)
  end.
Proof.
  intros Hi Hs Hu c. unfold configUpdateOperation. rewrite Hi, Hs, Hu.
  rewrite bind_eq. unfold lift, logical.StorageEntryJSON_config.
  rewrite bind_eq. unfold storage_Put, storage_call. cbn [fst snd].
  now destruct (fault env (ops w)).
Qed.

Lemma configAt_insert (m : gmap string Value) (c : config) :
  configAt (<[configPath := logical.ConfigJSON c]> m) = inr (Some c).
Proof. unfold configAt. now rewrite lookup_insert_eq. Qed.

End Configuration.



(** X20: a configuration written by [configUpdateOperation] is read back by
    [getConfig] as it went through the JSON encoder, and as it was given when
    its strings are valid UTF-8; [configReadOperation] then answers with its
    client ID, token URL and scopes (a request without scopes leaves nil
    scopes, whatever the configuration before). *)
Theorem config_round_trip (env : Env) (data : ConfigData) (w : World)
    (id secret url : string) :
  field_client_id data = Some id ->
  field_client_secret data = Some secret ->
  field_token_url data = Some url ->
  fault env (ops w) = None ->
  fault env (S (ops w)) = None ->
  let c := writtenConfig id secret url (field_config_scopes data) in
  let w1 := snd (configUpdateOperation env data w) in
  fst (getConfig env w1) = inr (Some (logical.json_config c)) /\
  (valid_config c ->
   fst (getConfig env w1) = inr (Some c) /\
   fst (configReadOperation env w1) =
     inr (Some {| logical.Data :=
                    {[ "client_id" := logical.AString id;
                       "token_url" := logical.AString url;
                       "scopes" := logical.AStrings (Scopes c) ]} |})).
Proof.
  intros Hi Hs Hu Hf Hf1 c w1. subst w1.
  rewrite (configUpdateOperation_complete env data w id secret url Hi Hs Hu).
  cbv zeta. rewrite Hf. cbn [snd]. fold c.
  assert (Hg : forall c0, logical.json_config c = c0 ->
            getConfig env (stored (EvPut configPath)
                             (<[configPath := logical.ConfigJSON (logical.json_config c)]>
                                (store w)) w) =
            (inr (Some c0), stored (EvGet configPath)
                 (<[configPath := logical.ConfigJSON (logical.json_config c)]> (store w))
                 (stored (EvPut configPath)
                    (<[configPath := logical.ConfigJSON (logical.json_config c)]>
                       (store w)) w))).
  { intros c0 <-. rewrite getConfig_eq. cbn [ops store stored].
    now rewrite Hf1, configAt_insert. }
  split; [now rewrite (Hg _ eq_refl)|].
  intros Hv. pose proof (json_config_valid c Hv) as Hj.
  split; [now rewrite (Hg c Hj)|].
  unfold configReadOperation. rewrite bind_eq, (Hg c Hj). reflexivity.
Qed.

Lemma config_round_trip_witness :
  fst (getConfig Sample.env (snd (configUpdateOperation Sample.env Sample.setup
                                    (Sample.world ∅)))) =
    inr (Some (Sample.conf Sample.abc)) /\
  fst (configReadOperation Sample.env
         (snd (configUpdateOperation Sample.env Sample.setup (Sample.world ∅)))) =
    inr (Some {| logical.Data :=
                   {[ "client_id" := logical.AString "foo";
                      "token_url" := logical.AString "http://localhost/token";
                      "scopes" := logical.AStrings Sample.abc ]} |}).
Proof.
  destruct (config_round_trip Sample.env Sample.setup (Sample.world ∅)
              "foo" "bar" "http://localhost/token"
              eq_refl eq_refl eq_refl eq_refl eq_refl) as [_ H].
  apply H. repeat split; try reflexivity.
  repeat constructor.
Defined.

(** X21: writing a new configuration leaves the stored tokens in place, and a
    token cached under the key of a request is still served afterwards,
    without an exchange, as long as it is valid, even when the client secret
    has changed. *)
Theorem reconfiguration_keeps_cached_tokens (env : Env) (cd : ConfigData)
    (data : FieldData) (w : World) (id secret url : string) (tok : Token) :
  field_client_id cd = Some id ->
  field_client_secret cd = Some secret ->
  field_token_url cd = Some url ->
  fault env (ops w) = None ->
  fault env (S (ops w)) = None ->
  fault env (S (S (ops w))) = None ->
  let c := logical.json_config
             (writtenConfig id secret url (field_config_scopes cd)) in
  let w1 := snd (configUpdateOperation env cd w) in
  tokenAt (store w) (tokenKey data c) = inr (Some tok) ->
  oauth2.Valid (clock w) (Some tok) = true ->
  (forall k, k <> configPath -> store w1 !! k = store w !! k) /\
  fst (credsReadOperation env data w1) = inr (Some (tokenResponse tok)) /\
  calls (snd (credsReadOperation env data w1)) = calls w.
Proof.
  intros Hi Hs Hu Hf Hf1 Hf2 c w1 Ht Hv. subst w1.
  rewrite (configUpdateOperation_complete env cd w id secret url Hi Hs Hu).
  cbv zeta. rewrite Hf. cbn [snd]. fold c.
  set (w1 := stored (EvPut configPath) _ w).
  split.
  { intros k Hk. subst w1. cbn [store stored]. now rewrite lookup_insert_ne. }
  assert (Hc1 : configAt (store w1) = inr (Some c)) by apply configAt_insert.
  destruct (credsReadOperation_configured env data w1 c Hf1 Hc1)
    as (c' & scopes & _ & E).
  rewrite E. clear E.
  assert (Ht1 : tokenAt (store (stored (EvGet configPath) (store w1) w1))
                        (tokenKey data c) = inr (Some tok)).
  { unfold tokenAt in *. subst w1. cbn [store stored].
    rewrite lookup_insert_ne; [exact Ht|].
    apply not_eq_sym. unfold tokenKey. apply credKeyWithScopes_not_configPath. }
  rewrite (getToken_fast env c' (tokenKey data c) scopes _ (Some tok));
    [|exact Hf2|exact Ht1|exact Hv].
  cbn [clock stored]. subst w1. cbn [clock stored]. rewrite Hv. now cbn.
Qed.

Lemma reconfiguration_keeps_cached_tokens_witness :
  fst (credsReadOperation Sample.env (Sample.read "user" None)
         (snd (configUpdateOperation Sample.env Sample.rotate Sample.stocked))) =
    inr (Some (tokenResponse (Sample.token "abcd2" 3600))) /\
  calls (snd (credsReadOperation Sample.env (Sample.read "user" None)
                (snd (configUpdateOperation Sample.env Sample.rotate Sample.stocked)))) =
    calls Sample.stocked.
Proof.
  apply (reconfiguration_keeps_cached_tokens Sample.env Sample.rotate
           (Sample.read "user" None) Sample.stocked "foo" "baz"
           "http://localhost/token" (Sample.token "abcd2" 3600));
    vm_compute; reflexivity.
Defined.

(** X22: [configDeleteOperation] removes the configuration and nothing else:
    the stored tokens stay, yet every read of a credential then answers "Not
    configured" without an exchange, and a read of the configuration answers
    with nothing.  When the deletion fails, the error is returned and the
    storage is unchanged. *)
Theorem config_delete (env : Env) (w : World) :
  (forall msg, fault env (ops w) = Some msg ->
     exists w', configDeleteOperation env w = (inl (ErrStorage msg), w') /\
                store w' = store w) /\
  (fault env (ops w) = None ->
   exists w',
     configDeleteOperation env w = (inr None, w') /\
     store w' = delete configPath (store w) /\
     (forall k, k <> configPath -> store w' !! k = store w !! k) /\
     (fault env (S (ops w)) = None ->
      fst (configReadOperation env w') = inr None /\
      forall data,
        fst (credsReadOperation env data w') =
          inr (Some (logical.ErrorResponse "Not configured")) /\
        calls (snd (credsReadOperation env data w')) = calls w)).
Proof.
  split.
  - intros msg Hf. unfold configDeleteOperation.
    rewrite bind_eq. unfold storage_Delete, storage_call. rewrite Hf.
    eexists. split; reflexivity.
  - intros Hf. unfold configDeleteOperation.
    rewrite bind_eq. unfold storage_Delete, storage_call. rewrite Hf.
    eexists. split; [reflexivity|]. cbn [store stored].
    split; [reflexivity|]. split; [intros k Hk; now rewrite lookup_delete_ne|].
    intros Hf1.
    assert (Hc : configAt (delete configPath (store w)) = inr None).
    { unfold configAt. now rewrite lookup_delete_eq. }
    split.
    + unfold configReadOperation. rewrite bind_eq, getConfig_eq.
      cbn [ops store stored]. now rewrite Hf1, Hc.
    + intros data. rewrite credsReadOperation_eq. cbv zeta.
      cbn [ops store stored]. now rewrite Hf1, Hc.
Qed.

Lemma config_delete_witness :
  (exists w', configDeleteOperation Sample.envDown Sample.stocked =
                (inl (ErrStorage "connection refused"), w') /\
              store w' = store Sample.stocked) /\
  (exists w',
     configDeleteOperation Sample.env Sample.stocked = (inr None, w') /\
     store w' !! Sample.userKey Sample.abc =
       Some (logical.TokenJSON (Sample.token "abcd2" 3600)) /\
     fst (credsReadOperation Sample.env (Sample.read "user" None) w') =
       inr (Some (logical.ErrorResponse "Not configured"))).
Proof.
  destruct (config_delete Sample.envDown Sample.stocked) as [H1 _].
  destruct (config_delete Sample.env Sample.stocked) as [_ H2].
  split; [apply (H1 "connection refused" eq_refl)|].
  destruct (H2 eq_refl) as (w' & E & Hs & Hk & Hr).
  exists w'. split; [exact E|]. split.
  - rewrite Hk by (vm_compute; discriminate). vm_compute. reflexivity.
  - apply (Hr eq_refl).
Defined.

(** ** How long a cached token is served *)

Lemma Valid_iff (now : Z) (tok : Token) :
  oauth2.Valid now (Some tok) = true <->
  oauth2.AccessToken tok <> "" /\
  (oauth2.Expiry tok = 0 \/ now <= oauth2.Expiry tok - oauth2.expiryDelta).
Proof.
  unfold oauth2.Valid, oauth2.expired.
  rewrite andb_true_iff, !negb_true_iff, String.eqb_neq.
  destruct (Z.eqb_spec (oauth2.Expiry tok) 0) as [E|E].
  - intuition.
  - rewrite Z.ltb_ge. intuition.
Qed.

(** X23: a token found in the storage is served by [getToken], without an
    exchange, exactly when its access token is not empty and it has no expiry
    or the clock has not passed its expiry less ten seconds; otherwise
    [getToken] makes an exchange. *)
Theorem cached_token_served_until_margin (env : Env) (c : config) (key : string)
    (scopes : slice) (w : World) (tok : Token) :
  fault env (ops w) = None ->
  tokenAt (store w) key = inr (Some tok) ->
  let served :=
    oauth2.AccessToken tok <> "" /\
    (oauth2.Expiry tok = 0 \/ clock w <= oauth2.Expiry tok - 10 * oauth2.second) in
  (served ->
   fst (getToken env c key scopes w) = inr (Some tok) /\
   calls (snd (getToken env c key scopes w)) = calls w) /\
  (~ served -> calls (snd (getToken env c key scopes w)) = S (calls w)).
Proof.
  intros Hf Ht served. split.
  - intros Hs. apply Valid_iff in Hs.
    now rewrite (getToken_fast env c key scopes w (Some tok) Hf Ht Hs).
  - intros Hn. apply (getToken_slow_calls env c key scopes w (Some tok) Hf Ht).
    destruct (oauth2.Valid (clock w) (Some tok)) eqn:Hv; [|reflexivity].
    now apply Valid_iff in Hv.
Qed.

Lemma cached_token_served_until_margin_witness :
  (fst (getToken Sample.env (Sample.conf Sample.abc) (Sample.userKey Sample.abc)
                 Sample.abc (advance (3590 * oauth2.second) Sample.afterSecondRead)) =
     inr (Some (Sample.token "abcd2" 3600)) /\
   calls (snd (getToken Sample.env (Sample.conf Sample.abc) (Sample.userKey Sample.abc)
                        Sample.abc (advance (3590 * oauth2.second) Sample.afterSecondRead))) =
     calls Sample.afterSecondRead) /\
  calls (snd (getToken Sample.env (Sample.conf Sample.abc) (Sample.userKey Sample.abc)
                       Sample.abc (advance (3590 * oauth2.second + 1) Sample.afterSecondRead))) =
    S (calls Sample.afterSecondRead).
Proof.
  split.
  - apply (cached_token_served_until_margin Sample.env (Sample.conf Sample.abc)
             (Sample.userKey Sample.abc) Sample.abc
             (advance (3590 * oauth2.second) Sample.afterSecondRead)
             (Sample.token "abcd2" 3600)); try (vm_compute; reflexivity).
    split; [discriminate|]. right. vm_compute. discriminate.
  - apply (cached_token_served_until_margin Sample.env (Sample.conf Sample.abc)
             (Sample.userKey Sample.abc) Sample.abc
             (advance (3590 * oauth2.second + 1) Sample.afterSecondRead)
             (Sample.token "abcd2" 3600)); try (vm_compute; reflexivity).
    intros [_ [H|H]]; [discriminate H|]. vm_compute in H. now apply H.
Defined.

(** X24: [getToken] never returns a nil token without an error, so a read of
    a credential always returns a response or an error, never neither. *)
Theorem read_never_returns_nothing (env : Env) (w : World) :
  (forall c key scopes, fst (getToken env c key scopes w) <> inr None) /\
  (forall data, fst (credsReadOperation env data w) <> inr None).
Proof.
  assert (HG : forall c key scopes w0, fst (getToken env c key scopes w0) <> inr None).
  { intros c key scopes w0.
    destruct (getToken_cases env c key scopes w0)
      as [[e H]|[(tok & H & Hv)|(tok & Hf & Ht & Hv)]].
    - now rewrite H.
    - rewrite H. cbn. intros [= ->]. discriminate Hv.
    - rewrite (getToken_slow env c key scopes w0 tok Hf Ht Hv). cbv zeta.
      destruct (upstream env _ _) as [e|new]; [discriminate|].
      destruct (logical.StorageEntryJSON_Token key new); [discriminate|].
      destruct (fault env (ops (exchanged _ _))); discriminate. }
  split; [intros; apply HG|].
  intros data. rewrite credsReadOperation_eq. cbv zeta.
  destruct (match fault env (ops w) with Some _ => _ | None => _ end)
    as [e|[c|]]; [discriminate| |discriminate].
  destruct (tokenRequest data c) as [[c' key] scopes].
  pose proof (HG c' key scopes (stored (EvGet configPath) (store w) w)) as H.
  destruct (getToken env c' key scopes _) as [[e|[tok|]] w1]; cbn [fst] in *.
  - destruct e; discriminate.
  - destruct (negb _); discriminate.
  - now destruct H.
Qed.

(** ** Deleting twice *)

Lemma List_keys_shrink (prefix : string) (m1 m2 : gmap string Value) (s : string) :
  (forall k, m2 !! k = None \/ m2 !! k = m1 !! k) ->
  s ∈ logical.List_keys prefix m2 -> s ∈ logical.List_keys prefix m1.
Proof.
  intros Hm. unfold logical.List_keys.
  rewrite !elem_of_remove_dups, !list_elem_of_omap. intros (k & Hk & Hc).
  exists k. split; [|exact Hc]. revert Hk.
  rewrite !merge_sort_Permutation, !elem_of_elements, !elem_of_dom.
  intros [v Hv]. destruct (Hm k) as [E|E]; rewrite Hv in E; [discriminate E|].
  now exists v.
Qed.

Section DeleteTwice.

Variable env : Env.

Lemma deleteEach_absent (key : string) (l : list string) (w : World) :
  no_faults env ->
  (forall s, s ∈ l -> store w !! ((key +:+ "/") +:+ s) = None) ->
  exists w', deleteEach env key l w = (inr tt, w') /\ store w' = store w.
Proof.
  intros Hnf. revert w. induction l as [|s l IH]; intros w Ha.
  - now exists w.
  - cbn [deleteEach]. rewrite bind_eq. unfold storage_Delete, storage_call.
    rewrite Hnf.
    assert (Hd : delete ((key +:+ "/") +:+ s) (store w) = store w).
    { apply delete_id, Ha. now left. }
    rewrite Hd.
    destruct (IH (stored (EvDelete ((key +:+ "/") +:+ s)) (store w) w))
      as (w' & E & Hs).
    { intros s' Hs'. cbn [store stored]. apply Ha. now right. }
    exists w'. split; [exact E | exact Hs].
Qed.

Lemma credsDeleteOperation_listed (data : FieldData) (w w' : World)
    (r : option Response) :
  credsDeleteOperation env data w = (inr r, w') ->
  let key := credKey (field_name data) in
  let m := waiting env (locks w) (store w) in
  (forall s, s ∈ logical.List_keys (key +:+ "/") m ->
             store w' !! ((key +:+ "/") +:+ s) = None) /\
  (forall k, store w' !! k = None \/ store w' !! k = m !! k).
Proof.
  intros H key m. unfold credsDeleteOperation in H.
  rewrite bind_eq in H. unfold do_ at 1, defer in H. fold key in H.
  rewrite bind_eq in H. unfold storage_List, storage_call in H.
  cbn [ops store Lock] in H. fold m in H.
  destruct (fault env (ops w)); [discriminate H|].
  rewrite bind_eq in H.
  pose proof (deleteEach_any env key (logical.List_keys (key +:+ "/") m)
                (stored (EvList (key +:+ "/")) m (Lock env w))) as Hany.
  destruct (deleteEach env key _ _) as [[e|[]] w2] eqn:Hd; [discriminate H|].
  unfold ret in H. injection H as _ <-.
  apply deleteEach_ok in Hd as (Hdel & _).
  cbn [snd store stored Lock Unlock] in *. split; [exact Hdel|].
  intros k. destruct Hany as (Hs & _). destruct (Hs k) as [E|[E _]]; auto.
Qed.

End DeleteTwice.

(** X25: deleting a name a second time, after a deletion that succeeded, no
    storage call failing and nobody else writing, succeeds and leaves the
    storage as it is. *)
Theorem delete_twice (env : Env) (data : FieldData) (w w1 : World)
    (r : option Response) :
  quiet env ->
  credsDeleteOperation env data w = (inr r, w1) ->
  exists w2,
    credsDeleteOperation env data w1 = (inr None, w2) /\ store w2 = store w1.
Proof.
  intros [Hnf Hw] H1.
  destruct (credsDeleteOperation_listed env data w w1 r H1) as [Hdel Hshrink].
  unfold credsDeleteOperation.
  rewrite bind_eq. unfold do_ at 1, defer.
  rewrite bind_eq. unfold storage_List, storage_call.
  cbn [ops store Lock]. rewrite Hnf, Hw. rewrite bind_eq.
  set (key := credKey (field_name data)) in *.
  destruct (deleteEach_absent env key (logical.List_keys (key +:+ "/") (store w1))
              (stored (EvList (key +:+ "/")) (store w1) (Lock env w1)) Hnf)
    as (w2 & E & Hs).
  { intros s Hin. cbn [store stored]. apply Hdel.
    eapply List_keys_shrink; [exact Hshrink | exact Hin]. }
  rewrite E. eexists. split; [reflexivity|]. cbn [store Unlock]. now rewrite Hs.
Qed.

Lemma delete_twice_witness :
  exists w2,
    credsDeleteOperation Sample.env (Sample.read "user" None)
      (snd (credsDeleteOperation Sample.env (Sample.read "user" None) Sample.stocked)) =
      (inr None, w2) /\
    store w2 =
      store (snd (credsDeleteOperation Sample.env (Sample.read "user" None) Sample.stocked)).
Proof.
  apply (delete_twice Sample.env (Sample.read "user" None) Sample.stocked _ None
           (conj (fun _ => eq_refl) (fun _ _ => eq_refl))).
  vm_compute. reflexivity.
Defined.
